(** * Discounted rewards (texar/losses/rewards.py)

    A shallow embedding of [discount_reward] and of its four kernels,
    [_discount_reward_py_1d], [_discount_reward_tensor_1d],
    [_discount_reward_py_2d] and [_discount_reward_tensor_2d].

    Modelling choices.
    - Array elements are real numbers: a float is read as the real it
      denotes, so rounding, NaN and infinities are outside the model and
      the [dtype] argument, which only selects the element type,
      is dropped.
    - A rank-1 array is a [list R]; a rank-2 array is the list of its rows
      (batch-major), all rows of one length. An empty batch is given zero
      columns.
    - [sequence_length] holds one natural number per batch row; rows and
      lengths are paired position by position, and numpy's broadcasting of
      a batch or a length vector of size 1 against a longer one is not
      modelled.
    - A tensor is represented by the value it evaluates to; assembling the
      graph and running it are not told apart.
    - Exceptions are values of [outcome]. *)

From Stdlib Require Import Reals Lra Lia ZArith.
From stdpp Require Import base list.

Open Scope R_scope.

(** ** Outcomes *)

(** The two [ValueError]s the module raises itself, and the failures raised
    inside numpy or TensorFlow by an operation the module calls. *)
Inductive error : Type :=
| MissingLength   (* 'sequence_length must not be `None` for 1D reward.' *)
| InvalidRank     (* "`tensor_rank` can only be 1 or 2." / "`reward` can only be 1D or 2D." *)
| LibraryError.   (* raised by the array library, not by this module *)

Inductive outcome (A : Type) : Type :=
| Raise (e : error)
| Return (a : A).
Arguments Raise {A} e.
Arguments Return {A} a.

Definition bind {A B : Type} (o : outcome A) (k : A -> outcome B) : outcome B :=
  match o with
  | Raise e => Raise e
  | Return a => k a
  end.

Definition omap {A B : Type} (f : A -> B) (o : outcome A) : outcome B :=
  bind o (fun a => Return (f a)).

(** The errors of the spec's taxonomy (both are input-validation failures). *)
Definition validation_error (e : error) : bool :=
  match e with
  | MissingLength | InvalidRank => true
  | LibraryError => false
  end.

(** ** Arrays *)

Abbreviation matrix := (list (list R)).

(** [m[r, t]], when it exists. *)
Definition entry (m : matrix) (r t : nat) : option R :=
  match m !! r with
  | Some row => row !! t
  | None => None
  end.

(** [m.shape[1]]. *)
Definition shape1 (m : matrix) : nat :=
  match m with
  | [] => 0%nat
  | row :: _ => length row
  end.

(** All rows have [m.shape[1]] entries. *)
Definition rectangular (m : matrix) : Prop :=
  Forall (fun row => length row = shape1 m) m.

Definition scale (c : R) (m : matrix) : matrix :=
  map (map (fun x => c * x)) m.

Definition sumR (l : list R) : R := foldr Rplus 0 l.
Definition prodR (l : list R) : R := foldr Rmult 1 l.

(** ** numpy primitives *)
Module Np.

(** [np.max] of a rank-1 integer array; it raises on an empty one. *)
Definition max (l : list nat) : option nat :=
  match l with
  | [] => None
  | x :: tl => Some (foldr Nat.max x tl)
  end.

Definition ones (rows cols : nat) : matrix := replicate rows (replicate cols 1).

Definition arange (n : nat) : list nat := seq 0 n.

(** [np.tile(row, [reps, 1])]. *)
Definition tile {A : Type} (row : list A) (reps : nat) : list (list A) :=
  replicate reps row.

(** Running reduction: the entries after the first of the cumulative
    [f]-reduction whose value so far is [acc]. *)
Fixpoint running (f : R -> R -> R) (acc : R) (l : list R) : list R :=
  match l with
  | [] => []
  | x :: tl => let a := f acc x in a :: running f a tl
  end.

Definition accumulate (f : R -> R -> R) (l : list R) : list R :=
  match l with
  | [] => []
  | x :: tl => x :: running f x tl
  end.

(** [np.cumsum(row)] and [np.cumprod(row)] along the time axis. *)
Definition cumsum : list R -> list R := accumulate Rplus.
Definition cumprod : list R -> list R := accumulate Rmult.

(** [m[:, ::-1]]. *)
Definition flip (m : matrix) : matrix := map reverse m.

(** [np.asarray(steps < bound[:, None], dtype)]: one bound per row. *)
Definition less_mask (steps : list (list nat)) (bound : list Z) : matrix :=
  zip_with (fun row b => map (fun t => if (Z.of_nat t <? b)%Z then 1 else 0) row)
           steps bound.

(** [m * col[:, None]]: row [r] is multiplied by [col[r]]. *)
Definition mul_col (m : matrix) (col : list R) : matrix :=
  zip_with (fun row x => map (fun w => w * x) row) m col.

Definition flatten (m : matrix) : list R := concat m.

(** [np.mean] and [np.std] over every entry of the array. *)
Definition mean (m : matrix) : R :=
  sumR (flatten m) / INR (length (flatten m)).

Definition var (m : matrix) : R :=
  let mu := mean m in
  sumR (map (fun x => (x - mu) * (x - mu)) (flatten m)) / INR (length (flatten m)).

Definition std (m : matrix) : R := sqrt (var m).

End Np.

(** ** The masking collaborator *)

(** Modelled from the spec: [texar.utils.shapes.mask_sequences] is imported
    by rewards.py and is not part of it. Spec section 6: it zeroes every
    entry at or beyond the corresponding row's length along the time axis
    (axis 1 of a batch-major array), and leaves the other entries as they
    are. The eager and the deferred variant are one function here. *)
Definition mask_sequences (sequence : matrix) (sequence_length : list nat) : matrix :=
  zip_with (fun row len => imap (fun t x => if (t <? len)%nat then x else 0) row)
           sequence sequence_length.

(** ** Eager kernels *)

(** The discount matrix of the 1D kernel, lines 81-88. *)
Definition dmat_py (batch_size max_seq_length : nat) (sequence_length : list nat)
    (discount : R) : matrix :=
  if Req_dec_T discount 1 then Np.ones batch_size max_seq_length
  else
    let steps := Np.tile (Np.arange max_seq_length) batch_size in
    let mask := Np.less_mask steps (map (fun len => (Z.of_nat len - 1)%Z) sequence_length) in
    (* Make each row = [discount, ..., discount, 1, ..., 1] *)
    let dmat := map (map (fun m => m * discount + (1 - m))) mask in
    Np.flip (map Np.cumprod (Np.flip dmat)).

Definition _discount_reward_py_1d (reward : list R) (sequence_length : option (list nat))
    (discount : R) : outcome matrix :=
  match sequence_length with
  | None => Raise MissingLength
  | Some sequence_length =>
    let batch_size := length reward in
    match Np.max sequence_length with
    | None => Raise LibraryError
    | Some max_seq_length =>
      let dmat := dmat_py batch_size max_seq_length sequence_length discount in
      let disc_reward := Np.mul_col dmat reward in
      Return (mask_sequences disc_reward sequence_length)
    end
  end.

(** One pass of the loop body [disc_reward[:, i] += disc_reward[:, i+1] * discount]
    on one row. The loop only visits [i] with [i + 1 < shape[1]], so both
    reads are in range; out of range the row is left as it is. *)
Definition step_row (discount : R) (i : nat) (row : list R) : list R :=
  match row !! i, row !! S i with
  | Some a, Some b => <[i := a + b * discount]> row
  | _, _ => row
  end.

Definition step_col (discount : R) (disc_reward : matrix) (i : nat) : matrix :=
  map (step_row discount i) disc_reward.

(** [range(n - 2, -1, -1)]: n-2, n-3, ..., 0; empty when [n <= 1]. *)
Definition range_down (n : nat) : list nat := reverse (seq 0 (n - 1)).

(** The [discount == 1.] branch of the 2D kernel, lines 130-131. *)
Definition fast_path_py_2d (reward : matrix) : matrix :=
  Np.flip (map Np.cumsum (Np.flip reward)).

(** The [else] branch, lines 133-135. *)
Definition general_path_py_2d (discount : R) (reward : matrix) : matrix :=
  let disc_reward := reward (* np.copy *) in
  fold_left (step_col discount) (range_down (shape1 reward)) disc_reward.

(** The reward the recurrence runs on, lines 124-125. *)
Definition premask (reward : matrix) (sequence_length : option (list nat)) : matrix :=
  match sequence_length with
  | Some sequence_length => mask_sequences reward sequence_length
  | None => reward
  end.

Definition _discount_reward_py_2d (reward : matrix) (sequence_length : option (list nat))
    (discount : R) : outcome matrix :=
  let reward := premask reward sequence_length in
  if Req_dec_T discount 1 then Return (fast_path_py_2d reward)
  else Return (general_path_py_2d discount reward).

(** ** TensorFlow primitives *)
Module Tf.

(** [tf.reduce_max] of the lengths; an empty batch has no maximum and the
    shape built from it is rejected when the graph runs. *)
Definition reduce_max (l : list nat) : option nat := Np.max l.

(** [tf.sequence_mask(lengths, dtype=dtype)]: [batch, max(lengths)]. *)
Definition sequence_mask (lengths : list nat) : option matrix :=
  match reduce_max lengths with
  | None => None
  | Some maxlen =>
    Some (map (fun len => map (fun t => if (t <? len)%nat then 1 else 0) (seq 0 maxlen))
              lengths)
  end.

(** [m[:, 1:]] and [m[:, -1:]]. *)
Definition tail_cols (m : matrix) : matrix := map (drop 1) m.
Definition last_col (m : matrix) : matrix := map (fun row => drop (length row - 1) row) m.

Definition zeros_like {A : Type} (l : list A) : list R := map (fun _ => 0) l.

(** [tf.concat([a, b], axis=1)]. *)
Definition concat_cols (a b : matrix) : matrix := zip_with app a b.

(** [tf.cumsum(m, axis=1, reverse=True)], [tf.cumprod(m, axis=1, reverse=True)]. *)
Definition cumsum_reverse (m : matrix) : matrix :=
  map (fun row => reverse (Np.cumsum (reverse row))) m.
Definition cumprod_reverse (m : matrix) : matrix :=
  map (fun row => reverse (Np.cumprod (reverse row))) m.

(** [tf.reverse(m, [1])] and [tf.transpose(m, [1, 0])]. *)
Definition reverse_time (m : matrix) : matrix := map reverse m.
Definition transpose (m : matrix) : matrix :=
  map (fun j => map (fun row => nth j row 0) m) (seq 0 (shape1 m)).

(** [m[:, j]]: the slice is rejected when [j] is not below [shape[1]]. *)
Definition column (j : nat) (m : matrix) : option (list R) :=
  if (j <? shape1 m)%nat then Some (map (fun row => nth j row 0) m) else None.

(** [tf.scan(fn, elems, initializer)]: the list of accumulator values. *)
Fixpoint scan {A B : Type} (fn : B -> A -> B) (elems : list A) (acc : B) : list B :=
  match elems with
  | [] => []
  | cur :: tl => let a := fn acc cur in a :: scan fn tl a
  end.

(** [tf.nn.moments(m, axes=[0, 1])]: mean and variance over every entry. *)
Definition moments (m : matrix) : R * R := (Np.mean m, Np.var m).

End Tf.

(** ** Array values of any rank *)

Inductive ndarray : Type :=
| Nd0 (x : R)
| Nd1 (v : list R)
| Nd2 (m : matrix)
| NdHigher (k : nat).   (* rank 3 + k; its entries are never read *)

Definition ndim (a : ndarray) : nat :=
  match a with
  | Nd0 _ => 0
  | Nd1 _ => 1
  | Nd2 _ => 2
  | NdHigher k => 3 + k
  end.

(** ** Deferred kernels *)

(** A tensor's rank is not inspected by the kernels: [tensor_rank] chose
    the kernel. Applied to a tensor of another rank the operations below
    have mismatched shapes; that case is outside the spec and is given
    [LibraryError] here. *)

(** Lines 106-114. *)
Definition dmat_tensor (batch_size : nat) (sequence_length : list nat) (discount : R)
    : outcome matrix :=
  if Req_dec_T discount 1 then
    match Tf.reduce_max sequence_length with
    | None => Raise LibraryError
    | Some max_seq_length => Return (Np.ones batch_size max_seq_length)
    end
  else
    match Tf.sequence_mask sequence_length with
    | None => Raise LibraryError
    | Some mask =>
      let mask := Tf.concat_cols (Tf.tail_cols mask) (map Tf.zeros_like (Tf.last_col mask)) in
      (* Make each row = [discount, ..., discount, 1, ..., 1] *)
      let dmat := map (map (fun m => m * discount + (1 - m))) mask in
      Return (Tf.cumprod_reverse dmat)
    end.

Definition _discount_reward_tensor_1d (reward : ndarray) (sequence_length : option (list nat))
    (discount : R) : outcome matrix :=
  match sequence_length with
  | None => Raise MissingLength
  | Some sequence_length =>
    match reward with
    | Nd1 reward =>
      let batch_size := length reward in
      bind (dmat_tensor batch_size sequence_length discount) (fun dmat =>
      let disc_reward := Np.mul_col dmat reward in
      Return (mask_sequences disc_reward sequence_length))
    | _ => Raise LibraryError
    end
  end.

(** Lines 149-156. *)
Definition general_path_tensor_2d (discount : R) (reward : matrix) : outcome matrix :=
  (* [max_time, batch_size] *)
  let rev_reward_T := Tf.transpose (Tf.reverse_time reward) in
  match Tf.column 1 reward with
  | None => Raise LibraryError
  | Some col =>
    let rev_reward_T_cum :=
      Tf.scan (fun acc cur => zip_with (fun c a => c + discount * a) cur acc)
              rev_reward_T (Tf.zeros_like col) in
    Return (Tf.reverse_time (Tf.transpose rev_reward_T_cum))
  end.

Definition _discount_reward_tensor_2d (reward : ndarray) (sequence_length : option (list nat))
    (discount : R) : outcome matrix :=
  match reward with
  | Nd2 reward =>
    let reward := premask reward sequence_length in
    if Req_dec_T discount 1 then Return (Tf.cumsum_reverse reward)
    else general_path_tensor_2d discount reward
  | _ => Raise LibraryError
  end.

(** ** The dispatcher *)

(** An operand is a concrete array or a tensor; [is_tensor] tells them apart. *)
Inductive operand (A : Type) : Type :=
| Eager (a : A)
| Tensor (a : A).
Arguments Eager {A} a.
Arguments Tensor {A} a.

Definition is_tensor {A : Type} (o : option (operand A)) : bool :=
  match o with
  | Some (Tensor _) => true
  | _ => false
  end.

Definition value {A : Type} (o : operand A) : A :=
  match o with
  | Eager a | Tensor a => a
  end.

(** Lines 49-50 and 64-66. *)
Definition normalize_tensor (disc_reward : matrix) : matrix :=
  let '(mu, var) := Tf.moments disc_reward in
  map (map (fun x => (x - mu) / (sqrt var + 1e-8))) disc_reward.

Definition normalize_py (disc_reward : matrix) : matrix :=
  let mu := Np.mean disc_reward in
  let std := Np.std disc_reward in
  map (map (fun x => (x - mu) / (std + 1e-8))) disc_reward.

(** Whether the call takes the deferred branch, line 38. *)
Definition deferred (reward : operand ndarray) (sequence_length : option (operand (list nat)))
    : bool :=
  is_tensor (Some reward) || is_tensor sequence_length.

Definition discount_reward (reward : operand ndarray)
    (sequence_length : option (operand (list nat)))
    (discount : R) (normalize : bool) (tensor_rank : Z) : outcome matrix :=
  let lengths := option_map value sequence_length in
  if deferred reward sequence_length then
    bind (if (tensor_rank =? 1)%Z then
            _discount_reward_tensor_1d (value reward) lengths discount
          else if (tensor_rank =? 2)%Z then
            _discount_reward_tensor_2d (value reward) lengths discount
          else Raise InvalidRank)
         (fun disc_reward =>
            Return (if normalize then normalize_tensor disc_reward else disc_reward))
  else
    let reward := value reward (* np.array(reward) *) in
    bind (match reward with
          | Nd1 v => _discount_reward_py_1d v lengths discount
          | Nd2 m => _discount_reward_py_2d m lengths discount
          | _ => Raise InvalidRank
          end)
         (fun disc_reward =>
            Return (if normalize then normalize_py disc_reward else disc_reward)).

(** The rank that selects the kernel: [tensor_rank] in deferred mode, the
    reward's own dimensionality in eager mode (line 53). *)
Definition selected_rank (reward : operand ndarray)
    (sequence_length : option (operand (list nat))) (tensor_rank : Z) : Z :=
  if deferred reward sequence_length then tensor_rank else Z.of_nat (ndim (value reward)).

(** ** Closed forms and predicates used in the statements

    Nothing below is part of the program: these are the functions and
    predicates the lemmas compare the kernels with. *)

(** The discounted sum of a row: [x0 + d * (x1 + d * (x2 + ...))]. *)
Definition discounted_sum (discount : R) (row : list R) : R :=
  foldr (fun x acc => x + acc * discount) 0 row.

(** The recurrence [out[t] = row[t] + out[t+1] * discount], the last entry
    being the row's own. *)
Fixpoint backward (discount : R) (row : list R) : list R :=
  match row with
  | [] => []
  | x :: tl =>
    match backward discount tl with
    | [] => [x]
    | (y :: _) as rest => (x + y * discount) :: rest
    end
  end.

(** What [mask_sequences] does to one row of length [len]. *)
Definition mask_row (len : nat) (row : list R) : list R :=
  imap (fun t x => if (t <? len)%nat then x else 0) row.

(** Two rewards of one shape that agree at every time index below the
    row's sequence length. *)
Definition agree_below (sl : list nat) (m1 m2 : matrix) : Prop :=
  length m1 = length m2 /\
  forall r len row1 row2,
    sl !! r = Some len -> m1 !! r = Some row1 -> m2 !! r = Some row2 ->
    length row1 = length row2 /\
    forall t, (t < len)%nat -> row1 !! t = row2 !! t.

(** The factor of one position before the cumulative product, lines 85-87. *)
Definition factor (discount : R) (len t : nat) : R :=
  let m := if (Z.of_nat t <? Z.of_nat len - 1)%Z then 1 else 0 in
  m * discount + (1 - m).

(** Row [r] of the discount matrix: [discount ^ (len - 1 - t)] at time [t],
    which is 1 from [t = len - 1] on. *)
Definition weights (discount : R) (T len : nat) : list R :=
  map (fun t => discount ^ (len - 1 - t)) (seq 0 T).

(** The closed form of one output row of the 1D kernel. *)
Definition expand_row (discount : R) (T : nat) (x : R) (len : nat) : list R :=
  map (fun t => if (t <? len)%nat then discount ^ (len - 1 - t) * x else 0) (seq 0 T).

(** Whether the deferred 2D kernel can slice time column 1. *)
Definition sliceable (discount : R) (reward : matrix) : Prop :=
  discount = 1 \/ (2 <= shape1 reward)%nat.

(** A rank-2 reward is a matrix: its rows have one length. *)
Definition well_formed (a : ndarray) : Prop :=
  match a with
  | Nd2 m => rectangular m
  | _ => True
  end.

(** The kernel output in closed form, for the ranks that have a kernel. *)
Definition closed_form (a : ndarray) (lengths : option (list nat)) (d : R) (out : matrix)
    : Prop :=
  match a with
  | Nd1 v =>
    exists sl T, lengths = Some sl /\ Np.max sl = Some T /\
                 out = zip_with (expand_row d T) v sl
  | Nd2 m => out = map (backward d) (premask m lengths)
  | _ => False
  end.

(** Every reward value multiplied by [c]. *)
Definition scale_nd (c : R) (a : ndarray) : ndarray :=
  match a with
  | Nd0 x => Nd0 (c * x)
  | Nd1 v => Nd1 (map (fun x => c * x) v)
  | Nd2 m => Nd2 (scale c m)
  | NdHigher k => NdHigher k
  end.

Definition scale_operand (c : R) (o : operand ndarray) : operand ndarray :=
  match o with
  | Eager a => Eager (scale_nd c a)
  | Tensor a => Tensor (scale_nd c a)
  end.

(** Entrywise sum of two matrices of one shape. *)
Definition matrix_add (m1 m2 : matrix) : matrix :=
  zip_with (zip_with Rplus) m1 m2.

(** Every entry shifted by [k]. *)
Definition shift (k : R) (m : matrix) : matrix :=
  map (map (fun x => x + k)) m.

(** Every entry is [c]. *)
Definition constant (c : R) (m : matrix) : Prop :=
  Forall (Forall (fun x => x = c)) m.

(** Every entry is non-negative. *)
Definition nonnegative (m : matrix) : Prop :=
  Forall (Forall (fun x => 0 <= x)) m.



(** Two rewards that agree from time index [t0] on, row by row. *)
Definition agree_from (t0 : nat) (m1 m2 : matrix) : Prop :=
  length m1 = length m2 /\
  forall r row1 row2 t,
    m1 !! r = Some row1 -> m2 !! r = Some row2 -> (t0 <= t)%nat ->
    row1 !! t = row2 !! t.

(** The [else] branch of the 1D kernel's discount matrix, lines 84-88, on
    its own: what [dmat_py] computes when the discount is not exactly 1. *)
Definition dmat_py_general (batch_size max_seq_length : nat) (sequence_length : list nat)
    (discount : R) : matrix :=
  let steps := Np.tile (Np.arange max_seq_length) batch_size in
  let mask := Np.less_mask steps (map (fun len => (Z.of_nat len - 1)%Z) sequence_length) in
  let dmat := map (map (fun m => m * discount + (1 - m))) mask in
  Np.flip (map Np.cumprod (Np.flip dmat)).

(** One length per batch row, when lengths are given. *)
Definition lengths_fit (reward : matrix) (sl : option (list nat)) : Prop :=
  match sl with
  | Some l => length l = length reward
  | None => True
  end.

(** The discounted return in explicit form: [x0 + x1 * d + x2 * d^2 + ...]. *)
Definition power_sum (discount : R) (row : list R) : R :=
  sumR (imap (fun k x => x * discount ^ k) row).

(** * Properties *)

(** ** Proof automation for concrete runs *)

Ltac case_discount :=
  match goal with
  | |- context [Req_dec_T ?a ?b] => destruct (Req_dec_T a b); [try lra | try lra]
  end.

Ltac eval_tests :=
  repeat match goal with
  | |- context [Z.ltb ?a ?b] =>
      let v := eval vm_compute in (Z.ltb a b) in change (Z.ltb a b) with v
  | |- context [Nat.ltb ?a ?b] =>
      let v := eval vm_compute in (Nat.ltb a b) in change (Nat.ltb a b) with v
  end; cbv iota.

Ltac same_entries := eval_tests; repeat (f_equal; try lra).

Ltac run_kernels :=
  unfold discount_reward, _discount_reward_py_1d, _discount_reward_py_2d,
    _discount_reward_tensor_1d, _discount_reward_tensor_2d,
    dmat_py, dmat_tensor, general_path_tensor_2d;
  cbn -[normalize_py normalize_tensor];
  repeat case_discount;
  cbn -[normalize_py normalize_tensor].

(** ** Cumulative reductions *)

Section Accumulate.
Variable f : R -> R -> R.
Variable e : R.
Hypothesis f_assoc : forall a b c, f a (f b c) = f (f a b) c.
Hypothesis f_comm : forall a b, f a b = f b a.
Hypothesis f_unit : forall a, f a e = a.

Lemma length_running acc l : length (Np.running f acc l) = length l.
Proof. revert acc; induction l as [|x l IH]; intros acc; simpl; [done|]. by rewrite IH. Qed.

Lemma length_accumulate l : length (Np.accumulate f l) = length l.
Proof. destruct l; simpl; [done|]. by rewrite length_running. Qed.

Lemma lookup_running acc l i :
  (i < length l)%nat ->
  Np.running f acc l !! i = Some (f acc (foldr f e (take (S i) l))).
Proof.
  revert acc i; induction l as [|x l IH]; intros acc i Hi; simpl in *; [lia|].
  destruct i as [|i]; simpl.
  - by rewrite f_unit.
  - rewrite IH by lia. simpl. by rewrite f_assoc.
Qed.

Lemma lookup_accumulate l i :
  (i < length l)%nat ->
  Np.accumulate f l !! i = Some (foldr f e (take (S i) l)).
Proof.
  destruct l as [|x l]; simpl; [lia|]. intros Hi.
  destruct i as [|i]; simpl.
  - by rewrite f_unit.
  - by rewrite lookup_running by lia.
Qed.

Lemma foldr_snoc_comm l x : foldr f e (l ++ [x]) = f x (foldr f e l).
Proof.
  induction l as [|y l IH]; simpl.
  - done.
  - rewrite IH. rewrite !f_assoc. by rewrite (f_comm y x).
Qed.

Lemma foldr_reverse_comm l : foldr f e (reverse l) = foldr f e l.
Proof.
  induction l as [|x l IH]; simpl; [done|].
  rewrite reverse_cons, foldr_snoc_comm. by rewrite IH.
Qed.

(** Entry [t] of a reduction accumulated from the end of the row is the
    reduction of the entries from [t] on. *)
Lemma lookup_accumulate_from_end l t :
  (t < length l)%nat ->
  reverse (Np.accumulate f (reverse l)) !! t = Some (foldr f e (drop t l)).
Proof.
  intros Ht.
  rewrite reverse_lookup by (rewrite length_accumulate, length_reverse; lia).
  rewrite length_accumulate, length_reverse.
  rewrite lookup_accumulate by (rewrite length_reverse; lia).
  rewrite take_reverse, foldr_reverse_comm.
  do 3 f_equal. lia.
Qed.

Lemma accumulate_from_end l :
  reverse (Np.accumulate f (reverse l)) = imap (fun t _ => foldr f e (drop t l)) l.
Proof.
  apply list_eq; intros t. rewrite list_lookup_imap.
  destruct (decide (t < length l)%nat) as [Ht|Ht].
  - rewrite lookup_accumulate_from_end by done.
    destruct (lookup_lt_is_Some_2 l t Ht) as [x ->]. done.
  - rewrite !lookup_ge_None_2; [done| lia |].
    rewrite length_reverse, length_accumulate, length_reverse. lia.
Qed.
End Accumulate.

Lemma cumsum_from_end (row : list R) :
  reverse (Np.cumsum (reverse row)) = imap (fun t _ => sumR (drop t row)) row.
Proof. apply accumulate_from_end; intros; lra. Qed.

Lemma cumprod_from_end (row : list R) :
  reverse (Np.cumprod (reverse row)) = imap (fun t _ => prodR (drop t row)) row.
Proof. apply accumulate_from_end; intros; lra. Qed.

(** ** Lists *)

Lemma lookup_map {A B : Type} (f : A -> B) (l : list A) (i : nat) :
  map f l !! i = option_map f (l !! i).
Proof. revert i; induction l as [|x l IH]; intros [|i]; simpl; auto. Qed.

Lemma map_eq_Forall {A B : Type} (f g : A -> B) (l : list A) :
  Forall (fun x => f x = g x) l -> map f l = map g l.
Proof. induction 1; simpl; congruence. Qed.

Lemma snoc_case {A : Type} (l : list A) : l = [] \/ exists pre x, l = pre ++ [x].
Proof. induction l as [|x pre _] using rev_ind; eauto. Qed.

Lemma entry_Some (m : matrix) (r t : nat) (x : R) :
  entry m r t = Some x <-> exists row, m !! r = Some row /\ row !! t = Some x.
Proof.
  unfold entry. destruct (m !! r) as [row|]; split.
  - eauto.
  - by intros (row' & [= <-] & ?).
  - done.
  - by intros (row' & ? & _).
Qed.

Lemma entry_map (f : list R -> list R) (m : matrix) (r t : nat) :
  entry (map f m) r t = match m !! r with Some row => f row !! t | None => None end.
Proof. unfold entry. rewrite lookup_map. by destruct (m !! r). Qed.

Lemma rectangular_lookup (m : matrix) (r : nat) (row : list R) :
  rectangular m -> m !! r = Some row -> length row = shape1 m.
Proof. intros Hm Hr. exact (proj1 (Forall_lookup _ _) Hm r row Hr). Qed.

(** ** The backward recurrence on one row *)

Lemma length_backward d row : length (backward d row) = length row.
Proof.
  induction row as [|x row IH]; simpl; [done|].
  destruct (backward d row); simpl in *; lia.
Qed.

Lemma backward_nonempty d row : row <> [] -> backward d row <> [].
Proof.
  intros H Hb. apply H. apply length_zero_iff_nil.
  rewrite <- (length_backward d), Hb. done.
Qed.

Lemma backward_head d row : row <> [] ->
  backward d row !! 0%nat = Some (discounted_sum d row).
Proof.
  induction row as [|x row IH]; intros H; [done|]. simpl.
  destruct row as [|x' row].
  - simpl. f_equal. lra.
  - specialize (IH ltac:(done)).
    destruct (backward d (x' :: row)) as [|y rest] eqn:E; [done|].
    simpl in IH. injection IH as ->. done.
Qed.

Lemma backward_drop d row t : drop t (backward d row) = backward d (drop t row).
Proof.
  revert t; induction row as [|x row IH]; intros t.
  - by destruct t.
  - destruct t as [|t]; [done|]. simpl drop at 2. rewrite <- IH. simpl.
    by destruct (backward d row).
Qed.

Lemma lookup_backward d row t : (t < length row)%nat ->
  backward d row !! t = Some (discounted_sum d (drop t row)).
Proof.
  intros Ht.
  assert (H : backward d row !! (t + 0)%nat = Some (discounted_sum d (drop t row))).
  { rewrite <- lookup_drop, backward_drop.
    apply backward_head. intros E. apply (f_equal length) in E.
    rewrite length_drop in E. simpl in E. lia. }
  by rewrite Nat.add_0_r in H.
Qed.

Lemma backward_closed d row :
  backward d row = imap (fun t _ => discounted_sum d (drop t row)) row.
Proof.
  apply list_eq; intros t. rewrite list_lookup_imap.
  destruct (decide (t < length row)%nat) as [Ht|Ht].
  - rewrite lookup_backward by done.
    by destruct (lookup_lt_is_Some_2 row t Ht) as [x ->].
  - rewrite !lookup_ge_None_2; [done | lia | rewrite length_backward; lia].
Qed.

(** The loop of the general path computes the recurrence, row by row. *)
Lemma loop_row d n : forall pre suf, length pre = n -> suf <> [] ->
  fold_left (fun row i => step_row d i row) (reverse (seq 0 n)) (pre ++ backward d suf)
  = backward d (pre ++ suf).
Proof.
  induction n as [|n IH]; intros pre suf Hn Hsuf.
  - by destruct pre.
  - destruct (snoc_case pre) as [->|(pre' & x & ->)]; [done|].
    rewrite length_app in Hn; simpl in Hn.
    rewrite seq_S, reverse_snoc. simpl.
    rewrite <- !app_assoc. simpl.
    assert (Hstep : step_row d n (pre' ++ x :: backward d suf)
                    = pre' ++ backward d (x :: suf)).
    { unfold step_row.
      pose proof (backward_nonempty d suf Hsuf) as Hb.
      destruct (backward d suf) as [|y rest] eqn:E; [done|].
      rewrite !lookup_app_r by lia.
      replace (n - length pre')%nat with 0%nat by lia.
      replace (S n - length pre')%nat with 1%nat by lia. simpl.
      rewrite E. rewrite insert_app_r_alt by lia.
      replace (n - length pre')%nat with 0%nat by lia. done. }
    rewrite Hstep. apply IH; [lia | done].
Qed.

Lemma loop_row_full d row :
  fold_left (fun row i => step_row d i row) (range_down (length row)) row = backward d row.
Proof.
  unfold range_down.
  destruct (snoc_case row) as [->|(pre & z & ->)]; [done|].
  rewrite length_app. simpl.
  replace (length pre + 1 - 1)%nat with (length pre) by lia.
  apply (loop_row d (length pre) pre [z]); done.
Qed.

Lemma fold_step_col d (idxs : list nat) (m : matrix) :
  fold_left (step_col d) idxs m
  = map (fun row => fold_left (fun row i => step_row d i row) idxs row) m.
Proof.
  revert m; induction idxs as [|i idxs IH]; intros m; simpl.
  - by rewrite map_id.
  - rewrite IH. unfold step_col. by rewrite map_map.
Qed.

Lemma general_path_py_2d_rows d (m : matrix) :
  rectangular m -> general_path_py_2d d m = map (backward d) m.
Proof.
  intros Hm. unfold general_path_py_2d. rewrite fold_step_col.
  apply map_eq_Forall. eapply Forall_impl; [exact Hm|].
  intros row <-. apply loop_row_full.
Qed.

Lemma fast_path_py_2d_rows (m : matrix) :
  fast_path_py_2d m = map (backward 1) m.
Proof.
  unfold fast_path_py_2d, Np.flip. rewrite !map_map.
  apply map_ext; intros row. rewrite cumsum_from_end, backward_closed.
  apply imap_ext; intros t x _. simpl.
  generalize (drop t row) as l. induction l as [|y l IH]; simpl; [done|].
  rewrite <- IH. lra.
Qed.

Lemma backward_recurrence d row t x :
  row !! t = Some x ->
  (S t = length row -> backward d row !! t = Some x) /\
  ((S t < length row)%nat ->
   exists y, backward d row !! S t = Some y /\ backward d row !! t = Some (x + d * y)).
Proof.
  intros Hx.
  assert (Hd : drop t (backward d row) = backward d (x :: drop (S t) row)).
  { rewrite backward_drop. f_equal. by apply drop_S. }
  assert (Hl : forall i, backward d row !! (t + i)%nat
                         = backward d (x :: drop (S t) row) !! i).
  { intros i. by rewrite <- lookup_drop, Hd. }
  pose proof (Hl 0%nat) as H0. pose proof (Hl 1%nat) as H1.
  rewrite Nat.add_0_r in H0. replace (t + 1)%nat with (S t) in H1 by lia.
  simpl in H0, H1. split.
  - intros Hlast. rewrite H0.
    assert (E : drop (S t) row = []) by (apply drop_ge; lia).
    by rewrite E.
  - intros Hlt.
    assert (E : backward d (drop (S t) row) <> []).
    { apply backward_nonempty. intros E. apply (f_equal length) in E.
      rewrite length_drop in E. simpl in E. lia. }
    destruct (backward d (drop (S t) row)) as [|y rest]; [done|].
    exists y. rewrite H0, H1. simpl. split; [done|]. f_equal. lra.
Qed.

Lemma discounted_sum_zeros d (l : list R) :
  Forall (fun x => x = 0) l -> discounted_sum d l = 0.
Proof. induction 1 as [|x l -> _ IH]; simpl; [done|]. rewrite IH. lra. Qed.

Lemma discounted_sum_one (l : list R) : discounted_sum 1 l = sumR l.
Proof. induction l as [|x l IH]; simpl; [done|]. rewrite IH. lra. Qed.

Lemma discounted_sum_scale c d (l : list R) :
  discounted_sum d (map (fun x => c * x) l) = c * discounted_sum d l.
Proof. induction l as [|x l IH]; simpl; [lra|]. rewrite IH. lra. Qed.

(** ** Masking *)

Lemma mask_sequences_lookup (m : matrix) (sl : list nat) (r : nat) :
  mask_sequences m sl !! r =
  match m !! r, sl !! r with
  | Some row, Some len => Some (mask_row len row)
  | _, _ => None
  end.
Proof.
  unfold mask_sequences. rewrite lookup_zip_with.
  destruct (m !! r); simpl; [|done]. by destruct (sl !! r).
Qed.

Lemma length_mask_row len row : length (mask_row len row) = length row.
Proof. apply length_imap. Qed.

Lemma mask_row_lookup len row t :
  mask_row len row !! t = option_map (fun x => if (t <? len)%nat then x else 0) (row !! t).
Proof. unfold mask_row. rewrite list_lookup_imap. by destruct (row !! t). Qed.

Lemma mask_row_padding len row t :
  (len <= t)%nat -> Forall (fun x => x = 0) (drop t (mask_row len row)).
Proof.
  intros Ht. apply Forall_lookup. intros i x.
  rewrite lookup_drop, mask_row_lookup.
  destruct (row !! (t + i)%nat); simpl; [|done].
  destruct (Nat.ltb_spec (t + i) len); [lia|]. congruence.
Qed.

Lemma rectangular_mask_sequences (m : matrix) (sl : list nat) :
  rectangular m -> rectangular (mask_sequences m sl).
Proof.
  intros Hm. apply Forall_lookup. intros r row' Hr.
  rewrite mask_sequences_lookup in Hr.
  destruct (m !! r) as [row|] eqn:Er; [|done].
  destruct (sl !! r) as [len|] eqn:El; [|done]. injection Hr as <-.
  rewrite length_mask_row, (rectangular_lookup m r row Hm Er).
  destruct m as [|row0 m']; [done|]. destruct sl as [|len0 sl']; [done|].
  simpl. by rewrite length_imap.
Qed.

Lemma rectangular_premask (m : matrix) sl : rectangular m -> rectangular (premask m sl).
Proof. destruct sl; simpl; [apply rectangular_mask_sequences | done]. Qed.

Lemma mask_sequences_agree (sl : list nat) (m1 m2 : matrix) :
  agree_below sl m1 m2 -> mask_sequences m1 sl = mask_sequences m2 sl.
Proof.
  intros [Hlen H]. apply list_eq; intros r. rewrite !mask_sequences_lookup.
  destruct (m1 !! r) as [row1|] eqn:E1, (m2 !! r) as [row2|] eqn:E2.
  - destruct (sl !! r) as [len|] eqn:El; [|done]. f_equal.
    destruct (H r len row1 row2 El E1 E2) as [Hl Ht].
    apply list_eq; intros t. rewrite !mask_row_lookup.
    destruct (Nat.ltb_spec t len) as [Hlt|Hge].
    + by rewrite Ht.
    + destruct (decide (t < length row1)%nat) as [Hin|Hout].
      * destruct (lookup_lt_is_Some_2 row1 t Hin) as [x1 ->].
        destruct (lookup_lt_is_Some_2 row2 t ltac:(lia)) as [x2 ->]. done.
      * rewrite !lookup_ge_None_2; [done | lia | lia].
  - apply lookup_lt_Some in E1. apply lookup_ge_None in E2. lia.
  - apply lookup_lt_Some in E2. apply lookup_ge_None in E1. lia.
  - done.
Qed.

(** ** The eager 2D kernel, row by row *)

Lemma discount_reward_py_2d_rows (reward : matrix) sl d :
  rectangular reward ->
  _discount_reward_py_2d reward sl d = Return (map (backward d) (premask reward sl)).
Proof.
  intros Hm. unfold _discount_reward_py_2d.
  destruct (Req_dec_T d 1) as [->|Hd].
  - by rewrite fast_path_py_2d_rows.
  - rewrite general_path_py_2d_rows; [done|]. by apply rectangular_premask.
Qed.

(** ** The eager 1D kernel, row by row *)

Lemma np_max_bound (sl : list nat) (T r len : nat) :
  Np.max sl = Some T -> sl !! r = Some len -> (len <= T)%nat.
Proof.
  destruct sl as [|x tl]; [done|]. simpl. intros [= <-].
  revert r x; induction tl as [|y tl IH]; intros r x Hr.
  - destruct r; simpl in Hr; [injection Hr as ->; simpl; lia | by destruct r].
  - destruct r as [|r]; simpl in *.
    + injection Hr as ->. specialize (IH 0%nat len eq_refl). lia.
    + destruct r as [|r]; simpl in Hr.
      * injection Hr as ->. lia.
      * specialize (IH (S r) x Hr). lia.
Qed.

Lemma prod_factors d len n : forall t,
  prodR (map (factor d len) (seq t n)) = d ^ (Nat.min (t + n) (len - 1) - t).
Proof.
  induction n as [|n IH]; intros t; simpl.
  - replace (Nat.min (t + 0) (len - 1) - t)%nat with 0%nat by lia. done.
  - rewrite IH. unfold factor.
    destruct (Z.ltb_spec (Z.of_nat t) (Z.of_nat len - 1)) as [Hlt|Hge].
    + replace (Nat.min (t + S n) (len - 1) - t)%nat
        with (S (Nat.min (S t + n) (len - 1) - S t)) by lia.
      simpl. lra.
    + replace (Nat.min (S t + n) (len - 1) - S t)%nat with 0%nat by lia.
      replace (Nat.min (t + S n) (len - 1) - t)%nat with 0%nat by lia.
      simpl. lra.
Qed.

Lemma weighted_row d T len : (len <= T)%nat ->
  reverse (Np.cumprod (reverse (map (factor d len) (seq 0 T)))) = weights d T len.
Proof.
  intros Hlen. rewrite cumprod_from_end. apply list_eq; intros t.
  unfold weights. rewrite list_lookup_imap, !lookup_map.
  destruct (decide (t < T)%nat) as [Ht|Ht].
  - rewrite lookup_seq_lt by done. simpl. f_equal.
    rewrite skipn_map, skipn_seq, prod_factors. f_equal. lia.
  - by rewrite lookup_seq_ge by lia.
Qed.

Lemma dmat_py_lookup B T sl d r len :
  (r < B)%nat -> sl !! r = Some len -> (len <= T)%nat ->
  exists row, dmat_py B T sl d !! r = Some row /\
              length row = T /\
              forall t, (t < T)%nat -> row !! t = Some (d ^ (len - 1 - t)).
Proof.
  intros Hr Hl HT. unfold dmat_py. destruct (Req_dec_T d 1) as [->|Hd].
  - exists (replicate T 1). unfold Np.ones. rewrite lookup_replicate_2 by done.
    split; [done|]. split; [apply length_replicate|].
    intros t Ht. rewrite lookup_replicate_2 by done. by rewrite pow1.
  - exists (weights d T len). split.
    + unfold Np.flip, Np.less_mask, Np.tile, Np.arange.
      rewrite !lookup_map, lookup_zip_with, lookup_replicate_2 by done. simpl.
      rewrite lookup_map, Hl. simpl. rewrite map_map.
      f_equal. by apply weighted_row.
    + unfold weights. split; [by rewrite length_map, length_seq|].
      intros t Ht. rewrite lookup_map, lookup_seq_lt by done. done.
Qed.

Lemma discount_reward_py_1d_rows (reward : list R) (sl : list nat) d T :
  Np.max sl = Some T ->
  _discount_reward_py_1d reward (Some sl) d = Return (zip_with (expand_row d T) reward sl).
Proof.
  intros HT. unfold _discount_reward_py_1d. rewrite HT. f_equal.
  apply list_eq; intros r.
  rewrite mask_sequences_lookup. unfold Np.mul_col. rewrite !lookup_zip_with.
  destruct (reward !! r) as [x|] eqn:Ex.
  2:{ destruct (dmat_py _ _ _ _ !! r); simpl; done. }
  destruct (sl !! r) as [len|] eqn:El.
  2:{ simpl. by destruct (dmat_py _ _ _ _ !! r). }
  destruct (dmat_py_lookup (length reward) T sl d r len) as (row & -> & Hlen & Hrow);
    [by eapply lookup_lt_Some | done | by eapply np_max_bound |].
  simpl. f_equal. apply list_eq; intros t.
  unfold expand_row. rewrite mask_row_lookup, !lookup_map.
  destruct (decide (t < T)%nat) as [Ht|Ht].
  - rewrite Hrow, lookup_seq_lt by done. simpl. by destruct (t <? len)%nat.
  - rewrite lookup_seq_ge by lia. by rewrite lookup_ge_None_2 by lia.
Qed.

(** ** The deferred 1D kernel, row by row *)

Lemma shifted_mask_row d T len : (len <= T)%nat ->
  let mask := map (fun t => if (t <? len)%nat then 1 else 0) (seq 0 T) in
  map (fun m => m * d + (1 - m))
      (drop 1 mask ++ Tf.zeros_like (drop (length mask - 1) mask))
  = map (factor d len) (seq 0 T).
Proof.
  intros Hlen mask. subst mask. destruct T as [|n]; [done|].
  rewrite length_map, length_seq. replace (S n - 1)%nat with n by lia.
  replace (map (factor d len) (seq 0 (S n)))
    with (map (factor d len) (seq 0 n) ++ [factor d len n])
    by (by rewrite seq_S, map_app).
  simpl.
  assert (Hlast : Tf.zeros_like (drop n ((if (0 <? len)%nat then 1 else 0)
              :: map (fun t => if (t <? len)%nat then 1 else 0) (seq 1 n))) = [0]).
  { set (l := _ :: _). assert (Hl : length (drop n l) = 1%nat).
    { rewrite length_drop. subst l. simpl. rewrite length_map, length_seq. lia. }
    destruct (drop n l) as [|z [|z' tl]]; simpl in Hl; try lia. done. }
  rewrite Hlast, map_app, <- seq_shift. unfold drop at 1. rewrite !map_map. f_equal.
  - apply map_ext; intros t. unfold factor.
    destruct (Nat.ltb_spec (S t) len), (Z.ltb_spec (Z.of_nat t) (Z.of_nat len - 1));
      try lia; done.
  - simpl. unfold factor.
    destruct (Z.ltb_spec (Z.of_nat n) (Z.of_nat len - 1)); [lia | done].
Qed.

Lemma dmat_tensor_lookup B T sl d :
  Np.max sl = Some T ->
  exists dmat, dmat_tensor B sl d = Return dmat /\
    forall r len, (r < B)%nat -> sl !! r = Some len ->
      exists row, dmat !! r = Some row /\ length row = T /\
                  forall t, (t < T)%nat -> row !! t = Some (d ^ (len - 1 - t)).
Proof.
  intros HT. unfold dmat_tensor, Tf.sequence_mask, Tf.reduce_max. rewrite HT.
  destruct (Req_dec_T d 1) as [->|Hd].
  - eexists; split; [done|]. intros r len Hr Hl.
    exists (replicate T 1). unfold Np.ones. rewrite lookup_replicate_2 by done.
    split; [done|]. split; [apply length_replicate|].
    intros t Ht. rewrite lookup_replicate_2 by done. by rewrite pow1.
  - eexists; split; [done|]. intros r len Hr Hl.
    exists (weights d T len).
    assert (HlenT : (len <= T)%nat) by (by eapply np_max_bound).
    split.
    + unfold Tf.cumprod_reverse, Tf.concat_cols, Tf.tail_cols, Tf.last_col.
      rewrite !lookup_map, lookup_zip_with, !lookup_map, Hl. simpl.
      f_equal. rewrite <- weighted_row by done. do 3 f_equal.
      by apply shifted_mask_row.
    + unfold weights. split; [by rewrite length_map, length_seq|].
      intros t Ht. rewrite lookup_map, lookup_seq_lt by done. done.
Qed.

Lemma discount_reward_tensor_1d_rows (reward : list R) (sl : list nat) d T :
  Np.max sl = Some T ->
  _discount_reward_tensor_1d (Nd1 reward) (Some sl) d
  = Return (zip_with (expand_row d T) reward sl).
Proof.
  intros HT. unfold _discount_reward_tensor_1d.
  destruct (dmat_tensor_lookup (length reward) T sl d HT) as (dmat & -> & Hd).
  simpl. f_equal. apply list_eq; intros r.
  rewrite mask_sequences_lookup. unfold Np.mul_col. rewrite !lookup_zip_with.
  destruct (reward !! r) as [x|] eqn:Ex.
  2:{ destruct (dmat !! r); simpl; done. }
  destruct (sl !! r) as [len|] eqn:El.
  2:{ simpl. by destruct (dmat !! r). }
  destruct (Hd r len) as (row & -> & Hlen & Hrow); [by eapply lookup_lt_Some | done |].
  simpl. f_equal. apply list_eq; intros t.
  unfold expand_row. rewrite mask_row_lookup, !lookup_map.
  destruct (decide (t < T)%nat) as [Ht|Ht].
  - rewrite Hrow, lookup_seq_lt by done. simpl. by destruct (t <? len)%nat.
  - rewrite lookup_seq_ge by lia. by rewrite lookup_ge_None_2 by lia.
Qed.

(** ** The deferred 2D kernel, row by row *)

Lemma scan_app {A B : Type} (fn : B -> A -> B) (l1 l2 : list A) (acc : B) :
  Tf.scan fn (l1 ++ l2) acc = Tf.scan fn l1 acc ++ Tf.scan fn l2 (fold_left fn l1 acc).
Proof. revert acc; induction l1 as [|x l1 IH]; intros acc; simpl; [done|]. by rewrite IH. Qed.

(** The reduction of the deferred general path on a single row. *)
Lemma scan_backward d (row : list R) :
  reverse (Tf.scan (fun acc cur => cur + d * acc) (reverse row) 0) = backward d row /\
  fold_left (fun acc cur => cur + d * acc) (reverse row) 0 = discounted_sum d row.
Proof.
  induction row as [|x row [IH1 IH2]]; [done|].
  rewrite reverse_cons, scan_app, fold_left_app, reverse_app, IH1, IH2. simpl.
  split; [|lra].
  destruct row as [|x' row].
  - simpl. f_equal. lra.
  - pose proof (backward_head d (x' :: row) ltac:(done)) as Hh.
    destruct (backward d (x' :: row)) as [|y rest]; [done|].
    simpl in Hh. injection Hh as ->. f_equal. simpl. lra.
Qed.

Lemma nth_zip_with (f : R -> R -> R) (l k : list R) (r : nat) :
  (r < length l)%nat -> (r < length k)%nat ->
  nth r (zip_with f l k) 0 = f (nth r l 0) (nth r k 0).
Proof.
  intros Hl Hk. rewrite !nth_lookup, lookup_zip_with.
  destruct (lookup_lt_is_Some_2 l r Hl) as [x ->].
  by destruct (lookup_lt_is_Some_2 k r Hk) as [y ->].
Qed.

(** Component [r] of the batch-wide reduction is the reduction of row [r]. *)
Lemma scan_component d (r : nat) (cols : list (list R)) : forall acc : list R,
  Forall (fun c => (r < length c)%nat) cols -> (r < length acc)%nat ->
  map (fun c => nth r c 0)
      (Tf.scan (fun acc cur => zip_with (fun c a => c + d * a) cur acc) cols acc)
  = Tf.scan (fun acc cur => cur + d * acc) (map (fun c => nth r c 0) cols) (nth r acc 0).
Proof.
  induction cols as [|cur cols IH]; intros acc Hc Hacc; [done|].
  inversion Hc as [|? ? Hcur Hcols]; subst. simpl.
  rewrite nth_zip_with by done. f_equal.
  rewrite IH; [by rewrite nth_zip_with | done |].
  rewrite length_zip_with. lia.
Qed.

Lemma transpose_component (m : matrix) (r : nat) (row : list R) :
  rectangular m -> m !! r = Some row ->
  map (fun c => nth r c 0) (Tf.transpose m) = row.
Proof.
  intros Hm Hr. unfold Tf.transpose. rewrite map_map.
  rewrite <- (rectangular_lookup m r row Hm Hr).
  apply list_eq; intros j. rewrite lookup_map.
  destruct (decide (j < length row)%nat) as [Hj|Hj].
  - rewrite lookup_seq_lt by done. simpl.
    rewrite nth_lookup, lookup_map, Hr. simpl.
    rewrite nth_lookup. by destruct (lookup_lt_is_Some_2 row j Hj) as [x ->].
  - rewrite lookup_seq_ge by lia. by rewrite lookup_ge_None_2 by lia.
Qed.

Lemma rectangular_reverse_time (m : matrix) :
  rectangular m -> rectangular (Tf.reverse_time m).
Proof.
  intros Hm. apply Forall_lookup. intros r row Hr.
  unfold Tf.reverse_time in *. rewrite lookup_map in Hr.
  destruct (m !! r) as [row'|] eqn:E; [|done]. injection Hr as <-.
  rewrite length_reverse, (rectangular_lookup m r row' Hm E).
  destruct m; simpl; [done|]. by rewrite length_reverse.
Qed.

Lemma shape1_reverse_time (m : matrix) : shape1 (Tf.reverse_time m) = shape1 m.
Proof. destruct m; simpl; [done|]. by rewrite length_reverse. Qed.

Lemma length_scan {A B : Type} (fn : B -> A -> B) (l : list A) (acc : B) :
  length (Tf.scan fn l acc) = length l.
Proof. revert acc; induction l as [|x l IH]; intros acc; simpl; [done|]. by rewrite IH. Qed.

Lemma general_path_tensor_2d_rows d (m : matrix) :
  rectangular m -> (2 <= shape1 m)%nat ->
  general_path_tensor_2d d m = Return (map (backward d) m).
Proof.
  intros Hm HT. unfold general_path_tensor_2d, Tf.column.
  destruct (Nat.ltb_spec 1 (shape1 m)); [|lia]. f_equal.
  set (cols := Tf.transpose (Tf.reverse_time m)).
  set (zeros := Tf.zeros_like _).
  set (cum := Tf.scan _ cols zeros).
  assert (Hzeros : length zeros = length m).
  { subst zeros. unfold Tf.zeros_like. by rewrite !length_map. }
  assert (Hcols : Forall (fun c => length c = length m) cols).
  { subst cols. unfold Tf.transpose. apply Forall_lookup. intros i c Hc.
    rewrite lookup_map in Hc. destruct (seq _ _ !! i) as [j|]; [|done].
    injection Hc as <-. unfold Tf.reverse_time. by rewrite !length_map. }
  assert (Hshape : shape1 cum = length m).
  { subst cum cols. unfold Tf.transpose at 1. rewrite shape1_reverse_time.
    destruct (shape1 m) as [|n]; [lia|]. simpl.
    rewrite length_zip_with, Hzeros. unfold Tf.reverse_time. rewrite !length_map. lia. }
  unfold Tf.reverse_time at 1. unfold Tf.transpose at 1. rewrite Hshape, map_map.
  apply list_eq; intros r. rewrite !lookup_map.
  destruct (decide (r < length m)%nat) as [Hr|Hr].
  2:{ rewrite lookup_seq_ge by lia. by rewrite lookup_ge_None_2 by lia. }
  rewrite lookup_seq_lt by done.
  destruct (lookup_lt_is_Some_2 m r Hr) as [row Hrow]. rewrite Hrow. simpl. f_equal.
  subst cum. rewrite scan_component.
  - subst cols. rewrite (transpose_component _ r (reverse row)).
    + subst zeros. unfold Tf.zeros_like. rewrite nth_lookup, lookup_map.
      replace (default 0 _) with 0.
      * apply scan_backward.
      * by destruct (map _ m !! r).
    + by apply rectangular_reverse_time.
    + unfold Tf.reverse_time. by rewrite lookup_map, Hrow.
  - eapply Forall_impl; [exact Hcols|]. simpl. intros c ->. done.
  - lia.
Qed.

Lemma fast_path_tensor_2d_rows (m : matrix) :
  Tf.cumsum_reverse m = map (backward 1) m.
Proof.
  rewrite <- fast_path_py_2d_rows. unfold Tf.cumsum_reverse, fast_path_py_2d, Np.flip.
  by rewrite !map_map.
Qed.

Lemma discount_reward_tensor_2d_rows (reward : matrix) sl d :
  rectangular reward -> sliceable d (premask reward sl) ->
  _discount_reward_tensor_2d (Nd2 reward) sl d
  = Return (map (backward d) (premask reward sl)).
Proof.
  intros Hm Hs. unfold _discount_reward_tensor_2d.
  destruct (Req_dec_T d 1) as [->|Hd].
  - by rewrite fast_path_tensor_2d_rows.
  - destruct Hs as [?|Hs]; [done|].
    apply general_path_tensor_2d_rows; [by apply rectangular_premask | done].
Qed.

Lemma discount_reward_tensor_2d_short (reward : matrix) sl d :
  d <> 1 -> (shape1 (premask reward sl) < 2)%nat ->
  _discount_reward_tensor_2d (Nd2 reward) sl d = Raise LibraryError.
Proof.
  intros Hd Hs. unfold _discount_reward_tensor_2d.
  destruct (Req_dec_T d 1) as [?|_]; [done|].
  unfold general_path_tensor_2d, Tf.column.
  by destruct (Nat.ltb_spec 1 (shape1 (premask reward sl))); [lia|].
Qed.

(** ** What the dispatcher returns *)

Lemma shape1_small_or_sliceable d (m : matrix) :
  sliceable d m \/ (d <> 1 /\ (shape1 m < 2)%nat).
Proof.
  unfold sliceable. destruct (Req_dec_T d 1); [by left; left|].
  destruct (le_lt_dec 2 (shape1 m)); [by left; right | by right].
Qed.

Lemma kernel_py_1d_closed v lengths d out :
  _discount_reward_py_1d v lengths d = Return out -> closed_form (Nd1 v) lengths d out.
Proof.
  destruct lengths as [sl|]; [|done].
  destruct (Np.max sl) as [T|] eqn:HT.
  - rewrite (discount_reward_py_1d_rows v sl d T HT). intros [= <-]. simpl. eauto.
  - unfold _discount_reward_py_1d. by rewrite HT.
Qed.

Lemma kernel_tensor_1d_closed a lengths d out :
  _discount_reward_tensor_1d a lengths d = Return out -> closed_form a lengths d out.
Proof.
  destruct lengths as [sl|]; [|done].
  destruct a as [x|v|m|k]; try done.
  destruct (Np.max sl) as [T|] eqn:HT.
  - rewrite (discount_reward_tensor_1d_rows v sl d T HT). intros [= <-]. simpl. eauto.
  - unfold _discount_reward_tensor_1d, dmat_tensor, Tf.sequence_mask, Tf.reduce_max.
    rewrite HT. by destruct (Req_dec_T d 1).
Qed.

Lemma kernel_tensor_2d_closed a lengths d out :
  well_formed a ->
  _discount_reward_tensor_2d a lengths d = Return out -> closed_form a lengths d out.
Proof.
  destruct a as [x|v|m|k]; try done. intros Hm. simpl in Hm.
  destruct (shape1_small_or_sliceable d (premask m lengths)) as [Hs|[Hd Hs]].
  - rewrite discount_reward_tensor_2d_rows by done. by intros [= <-].
  - by rewrite discount_reward_tensor_2d_short.
Qed.

Lemma discount_reward_closed reward sl d rank out :
  well_formed (value reward) ->
  discount_reward reward sl d false rank = Return out ->
  closed_form (value reward) (option_map value sl) d out.
Proof.
  intros Hwf. unfold discount_reward.
  destruct (deferred reward sl).
  - destruct (rank =? 1)%Z; [|destruct (rank =? 2)%Z; [|done]].
    + destruct (_discount_reward_tensor_1d _ _ _) as [e|o] eqn:E; [done|].
      simpl. intros [= <-]. by apply kernel_tensor_1d_closed.
    + destruct (_discount_reward_tensor_2d _ _ _) as [e|o] eqn:E; [done|].
      simpl. intros [= <-]. by apply kernel_tensor_2d_closed.
  - destruct (value reward) as [x|v|m|k] eqn:Ev; try done.
    + destruct (_discount_reward_py_1d _ _ _) as [e|o] eqn:E; [done|].
      simpl. intros [= <-]. by apply kernel_py_1d_closed.
    + rewrite discount_reward_py_2d_rows by done. simpl. by intros [= <-].
Qed.

Lemma expand_row_lookup d T x len t :
  (t < T)%nat ->
  expand_row d T x len !! t = Some (if (t <? len)%nat then d ^ (len - 1 - t) * x else 0).
Proof. intros Ht. unfold expand_row. by rewrite lookup_map, lookup_seq_lt. Qed.

Lemma closed_form_padding a sl d out r t len x :
  closed_form a (Some sl) d out ->
  sl !! r = Some len -> (len <= t)%nat -> entry out r t = Some x -> x = 0.
Proof.
  intros Hc Hl Ht Hx. apply entry_Some in Hx as (row & Hr & Hx).
  destruct a as [?|v|m|?]; try done; simpl in Hc.
  - destruct Hc as (sl' & T & [= <-] & HT & ->).
    rewrite lookup_zip_with, Hl in Hr.
    destruct (v !! r) as [y|]; [|done]. simpl in Hr. injection Hr as <-.
    unfold expand_row in Hx. rewrite lookup_map in Hx.
    destruct (seq 0 T !! t) as [t'|] eqn:Et; [|done].
    apply lookup_seq in Et as [-> _]. simpl in Hx.
    destruct (Nat.ltb_spec t len); [lia|]. congruence.
  - subst out. rewrite lookup_map, mask_sequences_lookup, Hl in Hr.
    destruct (m !! r) as [row0|]; [|done]. simpl in Hr. injection Hr as <-.
    assert (Hlt : (t < length (mask_row len row0))%nat).
    { rewrite <- (length_backward d). by eapply lookup_lt_Some. }
    rewrite lookup_backward in Hx by done. injection Hx as <-.
    apply discounted_sum_zeros. by apply mask_row_padding.
Qed.

(** ** The scenarios of the spec, run on the model *)

Example scenario_A :
  _discount_reward_py_1d [1; 2] (Some [3; 2]%nat) 1 = Return [[1; 1; 1]; [2; 2; 0]].
Proof. run_kernels. same_entries. Qed.

Example scenario_B_deferred :
  _discount_reward_tensor_1d (Nd1 [1]) (Some [3%nat]) 0.5 = Return [[0.25; 0.5; 1]].
Proof. run_kernels. same_entries. Qed.

Example scenario_C :
  _discount_reward_py_2d [[1; 2; 3]] None 1 = Return [[6; 5; 3]].
Proof. run_kernels. same_entries. Qed.

Example scenario_D_deferred :
  _discount_reward_tensor_2d (Nd2 [[1; 2; 3]]) None 0.5 = Return [[2.75; 3.5; 3]].
Proof. run_kernels. same_entries. Qed.

(** * The claims *)

(** C1 (as amended). When [normalize] is not set, every entry of the result
    of [discount_reward] at a time index greater than or equal to its row's
    sequence length is exactly zero: for the 1D and the 2D kernel, in eager
    and in deferred mode, for every discount. *)
Theorem masking_invariant reward sl d rank out r t len x :
  well_formed (value reward) ->
  discount_reward reward (Some sl) d false rank = Return out ->
  value sl !! r = Some len -> (len <= t)%nat ->
  entry out r t = Some x -> x = 0.
Proof.
  intros Hwf Hout Hl Ht Hx.
  eapply closed_form_padding; [|exact Hl|exact Ht|exact Hx].
  exact (discount_reward_closed reward (Some sl) d rank out Hwf Hout).
Qed.

Lemma masking_invariant_witness :
  exists out x,
    discount_reward (Eager (Nd1 [1; 2])) (Some (Eager [3; 2]%nat)) 1 false 1 = Return out /\
    entry out 1 2 = Some x /\ x = 0.
Proof.
  assert (Hrun : discount_reward (Eager (Nd1 [1; 2])) (Some (Eager [3; 2]%nat)) 1 false 1
                 = Return [[1; 1; 1]; [2; 2; 0]]).
  { run_kernels. same_entries. }
  exists [[1; 1; 1]; [2; 2; 0]], 0.
  split; [exact Hrun|]. split; [reflexivity|].
  apply (masking_invariant (Eager (Nd1 [1; 2])) (Eager [3; 2]%nat) 1 1
           [[1; 1; 1]; [2; 2; 0]] 1 2 2 0);
    [exact I | exact Hrun | reflexivity | lia | reflexivity].
Defined.

(** C1 as stated fails once [normalize] is set: reward [[1, 0]] with
    sequence length 1 and discount 1 gives the kernel output [[1, 0]], whose
    padded entry is standardized to [-0.5 / (0.5 + 1e-8)]. *)
Lemma masking_invariant_fails_normalized :
  exists out x,
    discount_reward (Eager (Nd2 [[1; 0]])) (Some (Eager [1%nat])) 1 true 2 = Return out /\
    [1%nat] !! 0%nat = Some 1%nat /\ (1 <= 1)%nat /\
    entry out 0 1 = Some x /\ x <> 0.
Proof.
  exists (normalize_py [[1; 0]]), ((0 - Np.mean [[1; 0]]) / (Np.std [[1; 0]] + 1e-8)).
  split; [|split; [done|split; [lia|split; [done|]]]].
  - run_kernels. same_entries.
  - assert (Hmu : Np.mean [[1; 0]] = 1 / 2).
    { unfold Np.mean. simpl. lra. }
    rewrite Hmu. pose proof (sqrt_pos (Np.var [[1; 0]])) as Hs.
    unfold Np.std. intros H.
    apply Rmult_integral in H as [H|H]; [lra|].
    revert H. apply Rinv_neq_0_compat. lra.
Qed.

Lemma premask_row_length (reward : matrix) sl r row :
  rectangular reward -> premask reward sl !! r = Some row -> length row = shape1 reward.
Proof.
  intros Hm Hr. destruct sl as [sl|]; simpl in Hr.
  - rewrite mask_sequences_lookup in Hr.
    destruct (reward !! r) as [row0|] eqn:E; [|done].
    destruct (sl !! r); [|done]. injection Hr as <-.
    rewrite length_mask_row. by eapply rectangular_lookup.
  - by eapply rectangular_lookup.
Qed.

(** C2. For a 2D reward and a discount other than 1, the eager 2D kernel
    returns a matrix that satisfies the backward recurrence on the
    (pre-masked) reward: at the last time index the output is the reward
    there, and at each earlier index [t] it is
    [reward(row, t) + discount * output(row, t+1)]. On [[1, 2, 3]] with
    discount 0.5 the output is [[2.75, 3.5, 3.0]]. *)
Theorem backward_recurrence_2d (reward : matrix) sl d :
  rectangular reward -> d <> 1 ->
  (exists out,
      _discount_reward_py_2d reward sl d = Return out /\
      forall r t x,
        entry (premask reward sl) r t = Some x ->
        (S t = shape1 reward -> entry out r t = Some x) /\
        ((S t < shape1 reward)%nat ->
         exists y, entry out r (S t) = Some y /\ entry out r t = Some (x + d * y))) /\
  _discount_reward_py_2d [[1; 2; 3]] None 0.5 = Return [[2.75; 3.5; 3]].
Proof.
  intros Hm Hd. split.
  - eexists. split; [by apply discount_reward_py_2d_rows|].
    intros r t x Hx. apply entry_Some in Hx as (row & Hr & Hx).
    rewrite <- (premask_row_length reward sl r row Hm Hr).
    unfold entry. rewrite lookup_map, Hr. simpl.
    by apply backward_recurrence.
  - unfold _discount_reward_py_2d. case_discount. cbn. same_entries.
Qed.

Lemma backward_recurrence_2d_witness :
  rectangular [[1; 2; 3]] /\ 0.5 <> 1 /\
  _discount_reward_py_2d [[1; 2; 3]] None 0.5 = Return [[2.75; 3.5; 3]] /\
  exists out y,
    _discount_reward_py_2d [[1; 2; 3]] None 0.5 = Return out /\
    entry out 0 2 = Some y /\ entry out 0 1 = Some (2 + 0.5 * y).
Proof.
  assert (Hm : rectangular [[1; 2; 3]]) by (repeat constructor).
  assert (Hd : 0.5 <> 1) by lra.
  split; [exact Hm|]. split; [exact Hd|].
  destruct (backward_recurrence_2d [[1; 2; 3]] None 0.5 Hm Hd)
    as ((out & Hout & Hrec) & Hrun).
  split; [exact Hrun|].
  destruct (Hrec 0%nat 1%nat 2 eq_refl) as [_ Hstep].
  destruct (Hstep ltac:(simpl; lia)) as (y & Hy & Hx).
  exists out, y. split; [exact Hout|]. split; [exact Hy | exact Hx].
Defined.

(** C3. For a rank-1 reward with one sequence length per batch row, the
    eager 1D kernel returns a batch x max(sequence_length) matrix whose
    entry for row [r] (length [len], scalar reward [x]) is
    [x * discount ^ (len - 1 - t)] at [t < len - 1], [x] at [t = len - 1]
    and 0 at [t >= len]. On reward [1.0], lengths [3], discount 0.5 the
    output row is [0.25, 0.5, 1.0]. *)
Theorem scalar_reward_expansion (reward : list R) (sl : list nat) d T :
  length reward = length sl -> Np.max sl = Some T ->
  (exists out,
      _discount_reward_py_1d reward (Some sl) d = Return out /\
      length out = length reward /\
      forall r x len,
        reward !! r = Some x -> sl !! r = Some len ->
        exists row, out !! r = Some row /\ length row = T /\
          forall t, (t < T)%nat ->
            ((S t < len)%nat -> row !! t = Some (x * d ^ (len - 1 - t))) /\
            (S t = len -> row !! t = Some x) /\
            ((len <= t)%nat -> row !! t = Some 0)) /\
  _discount_reward_py_1d [1] (Some [3%nat]) 0.5 = Return [[0.25; 0.5; 1]].
Proof.
  intros Hlen HT. split.
  - eexists. split; [by apply discount_reward_py_1d_rows|].
    split; [rewrite length_zip_with; lia|].
    intros r x len Hx Hl. exists (expand_row d T x len).
    split; [by rewrite lookup_zip_with, Hx, Hl|].
    split; [unfold expand_row; by rewrite length_map, length_seq|].
    intros t Ht. rewrite expand_row_lookup by done.
    destruct (Nat.ltb_spec t len) as [Hlt|Hge].
    + split; [|split]; intros H; try lia.
      * f_equal. lra.
      * subst len. replace (S t - 1 - t)%nat with 0%nat by lia. f_equal. simpl. lra.
    + split; [|split]; intros H; try lia. done.
  - unfold _discount_reward_py_1d, dmat_py. case_discount. cbn. same_entries.
Qed.

Lemma scalar_reward_expansion_witness :
  length [1] = length [3%nat] /\ Np.max [3%nat] = Some 3%nat /\
  _discount_reward_py_1d [1] (Some [3%nat]) 0.5 = Return [[0.25; 0.5; 1]] /\
  exists out row,
    _discount_reward_py_1d [1] (Some [3%nat]) 0.5 = Return out /\
    out !! 0%nat = Some row /\ row !! 0%nat = Some (1 * 0.5 ^ (3 - 1 - 0)).
Proof.
  split; [reflexivity|]. split; [reflexivity|].
  destruct (scalar_reward_expansion [1] [3%nat] 0.5 3 eq_refl eq_refl)
    as ((out & Hout & _ & Hrows) & Hrun).
  split; [exact Hrun|].
  destruct (Hrows 0%nat 1 3%nat eq_refl eq_refl) as (row & Hrow & _ & Hentries).
  destruct (Hentries 0%nat ltac:(lia)) as (Hearly & _ & _).
  exists out, row. split; [exact Hout|]. split; [exact Hrow|].
  apply Hearly. lia.
Defined.

(** C4. [discount_reward] raises one of its two input-validation errors
    exactly when the selected rank (tensor_rank in deferred mode, the
    reward's dimensionality in eager mode) is 1 and [sequence_length] is
    absent, or the selected rank is neither 1 nor 2. Which error it is
    depends on the selected rank and on the presence of the lengths alone,
    not on any reward value, on the discount or on [normalize]; a call that
    raises yields no matrix, [Raise] carrying only the error. *)
Theorem validation_errors reward sl d normalize rank :
  let k := selected_rank reward sl rank in
  let result := discount_reward reward sl d normalize rank in
  (result = Raise MissingLength <-> k = 1%Z /\ sl = None) /\
  (result = Raise InvalidRank <-> k <> 1%Z /\ k <> 2%Z) /\
  ((exists e, result = Raise e /\ validation_error e = true)
   <-> (k = 1%Z /\ sl = None) \/ (k <> 1%Z /\ k <> 2%Z)).
Proof.
  intros k result.
  assert (Hcases :
    (k = 1%Z /\ sl = None /\ result = Raise MissingLength) \/
    (k <> 1%Z /\ k <> 2%Z /\ result = Raise InvalidRank) \/
    ((k = 1%Z /\ sl <> None \/ k = 2%Z) /\
     (result = Raise LibraryError \/ exists out, result = Return out))).
  { subst k result. unfold selected_rank, discount_reward.
    destruct (deferred reward sl) eqn:Hmode.
    - destruct (Z.eqb_spec rank 1) as [->|H1].
      + destruct sl as [sl|].
        * right; right. split; [by left|].
          unfold _discount_reward_tensor_1d. simpl.
          destruct (value reward); simpl; auto.
          destruct (dmat_tensor _ _ _) as [[]|dmat] eqn:E; simpl; eauto.
          all: exfalso; revert E; unfold dmat_tensor;
            destruct (Req_dec_T d 1); [destruct (Tf.reduce_max _)
                                      |destruct (Tf.sequence_mask _)]; done.
        * left. done.
      + destruct (Z.eqb_spec rank 2) as [->|H2].
        * right; right. split; [by right|].
          unfold _discount_reward_tensor_2d, general_path_tensor_2d.
          destruct (value reward); simpl; auto.
          destruct (Req_dec_T d 1); simpl; eauto.
          destruct (Tf.column 1 _); simpl; eauto.
        * right; left. done.
    - destruct (value reward) as [x|v|m|n]; simpl.
      + right; left. done.
      + destruct sl as [sl|]; [|by left].
        right; right. split; [by left|]. simpl.
        destruct (Np.max (value sl)); simpl; eauto.
      + right; right. split; [by right|].
        unfold _discount_reward_py_2d. destruct (Req_dec_T d 1); simpl; eauto.
      + right; left. repeat split; lia. }
  clearbody k result.
  destruct Hcases as [(Hk & Hsl & ->)|[(H1 & H2 & ->)|(Hk & Hr)]].
  - split; [|split].
    + by split.
    + split; [intros [=] | intros [? _]; done].
    + split; [by left | intros _; by exists MissingLength].
  - split; [|split].
    + split; [intros [=] | intros [? _]; done].
    + by split.
    + split; [by right | intros _; by exists InvalidRank].
  - assert (Hn1 : ~ (k = 1%Z /\ sl = None)).
    { intros [? ?]. destruct Hk as [[_ ?]|?]; [done | lia]. }
    assert (Hn2 : ~ (k <> 1%Z /\ k <> 2%Z)).
    { intros [? ?]. destruct Hk as [[? _]|?]; done. }
    assert (Hn3 : forall e, result = Raise e -> validation_error e = false).
    { intros e He. destruct Hr as [Hr|(out & Hr)]; rewrite Hr in He.
      - by injection He as <-.
      - done. }
    split; [|split].
    + split; [intros H; by apply Hn3 in H | intros H; by destruct Hn1].
    + split; [intros H; by apply Hn3 in H | intros H; by destruct Hn2].
    + split; [|intros [H|H]; [by destruct Hn1 | by destruct Hn2]].
      intros (e & He & Hv). apply Hn3 in He. congruence.
Qed.

(** ** Eager and deferred mode *)

(** Whenever the deferred call returns, the eager call on the same values
    returns the same matrix (without normalization). *)
Lemma deferred_refines_eager (a : ndarray) lengths d out :
  well_formed a ->
  discount_reward (Tensor a) (option_map Tensor lengths) d false (Z.of_nat (ndim a))
    = Return out ->
  discount_reward (Eager a) (option_map Eager lengths) d false (Z.of_nat (ndim a))
    = Return out.
Proof.
  intros Hwf Hd.
  pose proof (discount_reward_closed (Tensor a) _ _ _ _ Hwf Hd) as Hc.
  assert (Hl : forall (f : list nat -> operand (list nat)),
             (forall l, value (f l) = l) ->
             option_map value (option_map f lengths) = lengths).
  { intros f Hf. destruct lengths; simpl; [by rewrite Hf | done]. }
  rewrite Hl in Hc by done.
  unfold discount_reward.
  replace (deferred (Eager a) (option_map Eager lengths)) with false
    by (by destruct lengths).
  rewrite Hl by done. simpl value in *.
  destruct a as [x|v|m|k]; try done; simpl in Hc.
  - destruct Hc as (sl & T & -> & HT & ->).
    by rewrite (discount_reward_py_1d_rows v sl d T HT).
  - subst out. by rewrite discount_reward_py_2d_rows.
Qed.

(** C5, at the input where the two modes part: a 2D reward with a single
    time step and a discount other than 1. The eager call returns the
    reward; the deferred call fails on the slice [reward[:, 1]]. *)
Theorem modes_differ_on_single_step :
  discount_reward (Eager (Nd2 [[1]])) None 0.5 false 2 = Return [[1]] /\
  discount_reward (Tensor (Nd2 [[1]])) None 0.5 false 2 = Raise LibraryError.
Proof. split; run_kernels; same_entries. Qed.

(** C9. With a discount other than 1 the deferred 2D kernel slices time
    column 1 of the (pre-masked) reward to shape its initial accumulator:
    it returns only when the reward has at least two time steps, and then
    it does return. With exactly one time step the slice is out of bounds
    and the kernel fails, whereas the eager 2D kernel returns the
    (pre-masked) reward unchanged, its loop body never running. *)
Theorem deferred_2d_needs_two_steps (reward : matrix) sl d :
  rectangular reward -> d <> 1 ->
  ((exists out, _discount_reward_tensor_2d (Nd2 reward) sl d = Return out)
   <-> (2 <= shape1 (premask reward sl))%nat) /\
  (shape1 (premask reward sl) = 1%nat ->
   _discount_reward_tensor_2d (Nd2 reward) sl d = Raise LibraryError /\
   range_down (shape1 (premask reward sl)) = [] /\
   _discount_reward_py_2d reward sl d = Return (premask reward sl)).
Proof.
  intros Hm Hd. split; [split|].
  - intros [out Hout].
    destruct (le_lt_dec 2 (shape1 (premask reward sl))) as [|Hs]; [done|].
    by rewrite discount_reward_tensor_2d_short in Hout.
  - intros Hs. eexists. apply discount_reward_tensor_2d_rows; [done | by right].
  - intros Hs. split; [apply discount_reward_tensor_2d_short; [done | lia]|].
    split; [by rewrite Hs|].
    unfold _discount_reward_py_2d, general_path_py_2d.
    destruct (Req_dec_T d 1); [done|]. by rewrite Hs.
Qed.

Lemma deferred_2d_needs_two_steps_witness :
  rectangular [[1]] /\ 0.5 <> 1 /\
  _discount_reward_tensor_2d (Nd2 [[1]]) None 0.5 = Raise LibraryError /\
  _discount_reward_py_2d [[1]] None 0.5 = Return [[1]].
Proof.
  assert (Hm : rectangular [[1]]) by (repeat constructor).
  assert (Hd : 0.5 <> 1) by lra.
  split; [exact Hm|]. split; [exact Hd|].
  destruct (proj2 (deferred_2d_needs_two_steps [[1]] None 0.5 Hm Hd) eq_refl)
    as (Ht & _ & Hp).
  split; [exact Ht | exact Hp].
Defined.

(** C8. With [sequence_length] supplied, the output of the 2D kernel does
    not depend on the reward at padded positions: two reward matrices of
    one shape that agree at every time index below the row's sequence
    length give the same output, from the eager kernel and from the
    deferred one. *)
Theorem padding_noninterference (sl : list nat) (reward1 reward2 : matrix) d :
  agree_below sl reward1 reward2 ->
  (exists out, _discount_reward_py_2d reward1 (Some sl) d = Return out /\
               _discount_reward_py_2d reward2 (Some sl) d = Return out) /\
  _discount_reward_tensor_2d (Nd2 reward1) (Some sl) d
  = _discount_reward_tensor_2d (Nd2 reward2) (Some sl) d.
Proof.
  intros Hagree. pose proof (mask_sequences_agree sl reward1 reward2 Hagree) as Hmask.
  unfold _discount_reward_py_2d, _discount_reward_tensor_2d. simpl. rewrite Hmask.
  split; [|done]. destruct (Req_dec_T d 1); eauto.
Qed.

Lemma padding_noninterference_witness :
  agree_below [1%nat] [[1; 5]] [[1; 7]] /\
  exists out, _discount_reward_py_2d [[1; 5]] (Some [1%nat]) 0.5 = Return out /\
              _discount_reward_py_2d [[1; 7]] (Some [1%nat]) 0.5 = Return out.
Proof.
  assert (H : agree_below [1%nat] [[1; 5]] [[1; 7]]).
  { split; [reflexivity|]. intros r len row1 row2 Hl H1 H2.
    destruct r as [|r]; [|destruct r; discriminate].
    injection Hl as <-. injection H1 as <-. injection H2 as <-.
    split; [reflexivity|]. intros t Ht.
    destruct t as [|t]; [reflexivity | lia]. }
  split; [exact H|].
  exact (proj1 (padding_noninterference [1%nat] [[1; 5]] [[1; 7]] 0.5 H)).
Defined.

(** ** Scaling the reward *)

Lemma shape1_scale c (m : matrix) : shape1 (scale c m) = shape1 m.
Proof. destruct m; simpl; [done|]. by rewrite length_map. Qed.

Lemma rectangular_scale c (m : matrix) : rectangular m -> rectangular (scale c m).
Proof.
  intros Hm. apply Forall_lookup. intros r row Hr.
  unfold scale in Hr. rewrite lookup_map in Hr.
  destruct (m !! r) as [row0|] eqn:E; [|done]. injection Hr as <-.
  rewrite length_map, shape1_scale. by eapply rectangular_lookup.
Qed.

Lemma mask_row_scale c len (row : list R) :
  mask_row len (map (fun x => c * x) row) = map (fun x => c * x) (mask_row len row).
Proof.
  apply list_eq; intros t. rewrite lookup_map, !mask_row_lookup, lookup_map.
  destruct (row !! t) as [x|]; simpl; [|done].
  destruct (t <? len)%nat; f_equal; lra.
Qed.

Lemma premask_scale c (m : matrix) sl : premask (scale c m) sl = scale c (premask m sl).
Proof.
  destruct sl as [sl|]; simpl; [|done].
  apply list_eq; intros r. unfold scale.
  rewrite lookup_map, !mask_sequences_lookup, lookup_map.
  destruct (m !! r) as [row|]; simpl; [|done].
  destruct (sl !! r) as [len|]; simpl; [|done].
  f_equal. apply mask_row_scale.
Qed.

Lemma backward_scale c d (row : list R) :
  backward d (map (fun x => c * x) row) = map (fun x => c * x) (backward d row).
Proof.
  induction row as [|x row IH]; simpl; [done|]. rewrite IH.
  destruct (backward d row) as [|y rest]; simpl; [done|].
  f_equal. lra.
Qed.

Lemma closed_2d_scale c d (m : matrix) sl :
  map (backward d) (premask (scale c m) sl) = scale c (map (backward d) (premask m sl)).
Proof.
  rewrite premask_scale. unfold scale. rewrite !map_map.
  apply map_ext; intros row. apply backward_scale.
Qed.

Lemma closed_1d_scale c d T (v : list R) (sl : list nat) :
  zip_with (expand_row d T) (map (fun x => c * x) v) sl
  = scale c (zip_with (expand_row d T) v sl).
Proof.
  revert sl; induction v as [|x v IH]; intros [|len sl]; simpl; try done.
  rewrite IH. f_equal. unfold expand_row. rewrite map_map.
  apply map_ext; intros t. destruct (t <? len)%nat; lra.
Qed.

Lemma kernel_py_1d_scale c v lengths d :
  _discount_reward_py_1d (map (fun x => c * x) v) lengths d
  = omap (scale c) (_discount_reward_py_1d v lengths d).
Proof.
  destruct lengths as [sl|]; [|done].
  destruct (Np.max sl) as [T|] eqn:HT.
  - rewrite !(discount_reward_py_1d_rows _ sl d T HT). simpl.
    by rewrite closed_1d_scale.
  - unfold _discount_reward_py_1d. by rewrite HT.
Qed.

Lemma kernel_tensor_1d_scale c a lengths d :
  _discount_reward_tensor_1d (scale_nd c a) lengths d
  = omap (scale c) (_discount_reward_tensor_1d a lengths d).
Proof.
  destruct lengths as [sl|]; [|done].
  destruct a as [x|v|m|k]; try done.
  destruct (Np.max sl) as [T|] eqn:HT.
  - simpl scale_nd. rewrite !(discount_reward_tensor_1d_rows _ sl d T HT). simpl.
    by rewrite closed_1d_scale.
  - unfold _discount_reward_tensor_1d, dmat_tensor, Tf.sequence_mask, Tf.reduce_max.
    simpl. rewrite HT. by destruct (Req_dec_T d 1).
Qed.

Lemma kernel_py_2d_scale c (m : matrix) lengths d :
  rectangular m ->
  _discount_reward_py_2d (scale c m) lengths d
  = omap (scale c) (_discount_reward_py_2d m lengths d).
Proof.
  intros Hm. rewrite !discount_reward_py_2d_rows by (done || by apply rectangular_scale).
  simpl. by rewrite closed_2d_scale.
Qed.

Lemma kernel_tensor_2d_scale c a lengths d :
  well_formed a ->
  _discount_reward_tensor_2d (scale_nd c a) lengths d
  = omap (scale c) (_discount_reward_tensor_2d a lengths d).
Proof.
  destruct a as [x|v|m|k]; try done. intros Hm; simpl in Hm. simpl scale_nd.
  destruct (shape1_small_or_sliceable d (premask m lengths)) as [Hs|[Hd Hs]].
  - rewrite !discount_reward_tensor_2d_rows; try done.
    + simpl. by rewrite closed_2d_scale.
    + by apply rectangular_scale.
    + rewrite premask_scale. destruct Hs as [?|Hs]; [by left | right].
      by rewrite shape1_scale.
  - rewrite !discount_reward_tensor_2d_short; try done.
    by rewrite premask_scale, shape1_scale.
Qed.

(** C10. With [normalize] unset, [discount_reward] is homogeneous in the
    reward: scaling every reward value by [c] scales every entry of the
    output by [c], for every sequence length and every discount, for the
    1D and the 2D kernel on their fast and general paths, in eager and in
    deferred mode; a call that raises still raises the same error. *)
Theorem reward_homogeneity c reward sl d rank :
  well_formed (value reward) ->
  discount_reward (scale_operand c reward) sl d false rank
  = omap (scale c) (discount_reward reward sl d false rank).
Proof.
  intros Hwf. unfold discount_reward.
  assert (Hmode : deferred (scale_operand c reward) sl = deferred reward sl)
    by (by destruct reward).
  assert (Hval : value (scale_operand c reward) = scale_nd c (value reward))
    by (by destruct reward).
  rewrite Hmode, Hval. destruct (deferred reward sl).
  - destruct (rank =? 1)%Z; [|destruct (rank =? 2)%Z; [|done]].
    + rewrite kernel_tensor_1d_scale. by destruct (_discount_reward_tensor_1d _ _ _).
    + rewrite kernel_tensor_2d_scale by done.
      by destruct (_discount_reward_tensor_2d _ _ _).
  - destruct (value reward) as [x|v|m|k]; try done; simpl scale_nd; cbv iota.
    + rewrite kernel_py_1d_scale. by destruct (_discount_reward_py_1d _ _ _).
    + rewrite kernel_py_2d_scale by done. by destruct (_discount_reward_py_2d _ _ _).
Qed.

Lemma reward_homogeneity_witness :
  well_formed (Nd2 [[1; 2; 3]]) /\
  discount_reward (Eager (Nd2 [[3 * 1; 3 * 2; 3 * 3]])) None 0.5 false 2
  = omap (scale 3) (discount_reward (Eager (Nd2 [[1; 2; 3]])) None 0.5 false 2).
Proof.
  assert (Hwf : well_formed (value (Eager (Nd2 [[1; 2; 3]])))) by (repeat constructor).
  split; [exact Hwf|].
  exact (reward_homogeneity 3 (Eager (Nd2 [[1; 2; 3]])) None 0.5 2 Hwf).
Defined.

(** ** The fast path and the general path *)

Lemma discounted_sum_continuity (l : list R) :
  continuity (fun d => discounted_sum d l).
Proof.
  induction l as [|x l IH]; simpl.
  - apply continuity_const. by intros ? ?.
  - change (continuity (fct_cte x + (fun d => discounted_sum d l) * id)%F).
    apply continuity_plus; [apply continuity_const; by intros ? ?|].
    apply continuity_mult; [exact IH|].
    apply derivable_continuous, derivable_id.
Qed.

Lemma discounted_sum_limit (l : list R) (eps : R) :
  0 < eps ->
  exists delta, 0 < delta /\
    forall d, d <> 1 -> Rabs (d - 1) < delta ->
      Rabs (discounted_sum d l - discounted_sum 1 l) < eps.
Proof.
  intros Heps.
  destruct (discounted_sum_continuity l 1 eps Heps) as (delta & Hdelta & H).
  exists delta. split; [lra|]. intros d Hd Hclose.
  apply (H d). split; [|exact Hclose].
  split; [exact I | congruence].
Qed.

(** C6. On every 2D reward the [discount == 1] fast path, the reverse
    cumulative sum [output(row, t) = sum of reward(row, t') for t' >= t],
    is the general backward recurrence run with factor 1; and the
    general-path result, which the kernel returns for every discount other
    than 1, converges entrywise to the fast-path result as the discount
    approaches 1. *)
Theorem fast_path_consistency (reward : matrix) sl :
  rectangular reward ->
  let masked := premask reward sl in
  _discount_reward_py_2d reward sl 1 = Return (fast_path_py_2d masked) /\
  fast_path_py_2d masked = general_path_py_2d 1 masked /\
  (forall r row t, masked !! r = Some row -> (t < length row)%nat ->
     entry (fast_path_py_2d masked) r t = Some (sumR (drop t row))) /\
  (forall r t y, entry (fast_path_py_2d masked) r t = Some y ->
     forall eps, 0 < eps ->
       exists delta, 0 < delta /\
         forall d, d <> 1 -> Rabs (d - 1) < delta ->
           _discount_reward_py_2d reward sl d = Return (general_path_py_2d d masked) /\
           exists x, entry (general_path_py_2d d masked) r t = Some x /\
                     Rabs (x - y) < eps).
Proof.
  intros Hm masked.
  assert (Hmasked : rectangular masked) by (by apply rectangular_premask).
  split; [|split; [|split]].
  - unfold _discount_reward_py_2d. by destruct (Req_dec_T 1 1).
  - by rewrite fast_path_py_2d_rows, general_path_py_2d_rows.
  - intros r row t Hr Ht. rewrite fast_path_py_2d_rows.
    unfold entry. rewrite lookup_map, Hr. simpl.
    rewrite lookup_backward by done. by rewrite discounted_sum_one.
  - intros r t y Hy eps Heps.
    rewrite fast_path_py_2d_rows in Hy. apply entry_Some in Hy as (orow & Hr & Hy).
    rewrite lookup_map in Hr. destruct (masked !! r) as [row|] eqn:Er; [|done].
    injection Hr as <-.
    assert (Ht : (t < length row)%nat).
    { rewrite <- (length_backward 1). by eapply lookup_lt_Some. }
    rewrite lookup_backward in Hy by done. injection Hy as <-.
    destruct (discounted_sum_limit (drop t row) eps Heps) as (delta & Hdelta & H).
    exists delta. split; [done|]. intros d Hd Hclose. split.
    + unfold _discount_reward_py_2d. by destruct (Req_dec_T d 1).
    + exists (discounted_sum d (drop t row)). split; [|by apply H].
      rewrite general_path_py_2d_rows by done.
      unfold entry. rewrite lookup_map, Er. simpl. by apply lookup_backward.
Qed.

Lemma fast_path_consistency_witness :
  rectangular [[1; 2; 3]] /\
  _discount_reward_py_2d [[1; 2; 3]] None 1 = Return (fast_path_py_2d [[1; 2; 3]]) /\
  fast_path_py_2d [[1; 2; 3]] = general_path_py_2d 1 [[1; 2; 3]] /\
  entry (fast_path_py_2d [[1; 2; 3]]) 0 0 = Some (3 + 2 + 1) /\
  exists delta, 0 < delta /\
    forall d, d <> 1 -> Rabs (d - 1) < delta ->
      exists x, entry (general_path_py_2d d [[1; 2; 3]]) 0 0 = Some x /\
                Rabs (x - (3 + 2 + 1)) < 0.001.
Proof.
  assert (Hm : rectangular [[1; 2; 3]]) by (repeat constructor).
  split; [exact Hm|].
  destruct (fast_path_consistency [[1; 2; 3]] None Hm) as (H1 & H2 & _ & Hlim).
  split; [exact H1|]. split; [exact H2|]. split; [reflexivity|].
  destruct (Hlim 0%nat 0%nat (3 + 2 + 1) eq_refl 0.001 ltac:(lra)) as (delta & Hdelta & H).
  exists delta. split; [exact Hdelta|].
  intros d Hd Hclose. exact (proj2 (H d Hd Hclose)).
Defined.

(** ** Normalization *)

Lemma flatten_map (f : R -> R) (m : matrix) :
  Np.flatten (map (map f) m) = map f (Np.flatten m).
Proof. unfold Np.flatten. by rewrite concat_map. Qed.

Lemma sumR_map_shift_scale (mu k : R) (l : list R) :
  sumR (map (fun x => (x - mu) * k) l) = (sumR l - INR (length l) * mu) * k.
Proof.
  induction l as [|x l IH]; [simpl; lra|].
  change (sumR (map (fun x => (x - mu) * k) (x :: l)))
    with ((x - mu) * k + sumR (map (fun x => (x - mu) * k) l)).
  rewrite IH. change (length (x :: l)) with (S (length l)). rewrite S_INR.
  simpl. lra.
Qed.

Lemma sumR_map_scale (g : R -> R) (k : R) (l : list R) :
  sumR (map (fun x => g x * k) l) = sumR (map g l) * k.
Proof. induction l as [|x l IH]; simpl; [lra|]. rewrite IH. lra. Qed.

Lemma std_nonneg (m : matrix) : 0 <= Np.std m.
Proof. apply sqrt_pos. Qed.

Lemma stabilized_std_pos (m : matrix) : 0 < Np.std m + 1e-8.
Proof. pose proof (std_nonneg m). lra. Qed.

Lemma normalize_py_flat (m : matrix) :
  Np.flatten (normalize_py m)
  = map (fun x => (x - Np.mean m) * / (Np.std m + 1e-8)) (Np.flatten m).
Proof. unfold normalize_py. by rewrite flatten_map. Qed.

Lemma mean_normalize_py (m : matrix) :
  Np.flatten m <> [] -> Np.mean (normalize_py m) = 0.
Proof.
  intros Hne. unfold Np.mean at 1.
  rewrite normalize_py_flat, length_map, sumR_map_shift_scale.
  assert (Hn : INR (length (Np.flatten m)) <> 0).
  { apply not_0_INR. by destruct (Np.flatten m). }
  unfold Np.mean. field. split; [|done]. pose proof (std_nonneg m). lra.
Qed.

Lemma var_normalize_py (m : matrix) :
  Np.flatten m <> [] ->
  Np.var (normalize_py m)
  = Np.var m / ((Np.std m + 1e-8) * (Np.std m + 1e-8)).
Proof.
  intros Hne. unfold Np.var at 1. rewrite mean_normalize_py by done.
  rewrite normalize_py_flat, length_map, map_map.
  pose proof (stabilized_std_pos m) as Hc.
  set (c := Np.std m + 1e-8) in *. set (mu := Np.mean m).
  rewrite (map_ext _ (fun x => ((x - mu) * (x - mu)) * / (c * c))).
  2:{ intros x. field. lra. }
  rewrite (sumR_map_scale (fun x => (x - mu) * (x - mu))).
  unfold Np.var. fold mu. unfold Rdiv. lra.
Qed.

Lemma std_normalize_py (m : matrix) :
  Np.flatten m <> [] ->
  Np.std (normalize_py m) = Np.std m / (Np.std m + 1e-8).
Proof.
  intros Hne. unfold Np.std at 1. rewrite var_normalize_py by done.
  pose proof (stabilized_std_pos m) as Hc.
  rewrite sqrt_div_alt by nra.
  rewrite sqrt_square by lra. done.
Qed.

(** C7 (as amended). When [normalize] is set, [discount_reward] returns the
    kernel output standardized over all of its entries, each [x] becoming
    [(x - mean) / (std + 1e-8)] with the mean and the population standard
    deviation of the whole batch x time result, by the same reduction in
    both modes. For a kernel output [m] with at least one entry the
    flattened result has mean 0 and standard deviation
    [std m / (std m + 1e-8)], which is below 1. *)
Theorem normalization_law reward sl d rank :
  discount_reward reward sl d true rank
  = omap normalize_py (discount_reward reward sl d false rank) /\
  forall m : matrix,
    normalize_tensor m = normalize_py m /\
    (forall r t x, entry m r t = Some x ->
       entry (normalize_py m) r t = Some ((x - Np.mean m) / (Np.std m + 1e-8))) /\
    (Np.flatten m <> [] ->
       Np.mean (normalize_py m) = 0 /\
       Np.std (normalize_py m) = Np.std m / (Np.std m + 1e-8) /\
       Np.std (normalize_py m) < 1).
Proof.
  split.
  - unfold discount_reward. destruct (deferred reward sl).
    + by destruct (if (rank =? 1)%Z then _ else _).
    + by destruct (match value reward with Nd1 _ => _ | _ => _ end).
  - intros m. split; [done|]. split.
    + intros r t x Hx. apply entry_Some in Hx as (row & Hr & Hx).
      unfold normalize_py, entry. rewrite lookup_map, Hr. simpl.
      by rewrite lookup_map, Hx.
    + intros Hne. split; [by apply mean_normalize_py|].
      rewrite std_normalize_py by done. split; [done|].
      pose proof (std_nonneg m) as Hs.
      apply (Rmult_lt_reg_r (Np.std m + 1e-8)); [lra|].
      field_simplify; lra.
Qed.

Lemma normalization_law_witness :
  Np.flatten [[1; 0]] <> [] /\
  Np.mean (normalize_py [[1; 0]]) = 0 /\
  Np.std (normalize_py [[1; 0]]) = Np.std [[1; 0]] / (Np.std [[1; 0]] + 1e-8).
Proof.
  assert (Hne : Np.flatten [[1; 0]] <> []) by discriminate.
  split; [exact Hne|].
  destruct (proj2 (proj2 (proj2 (normalization_law (Eager (Nd2 [[1; 0]])) None 1 2)
                                [[1; 0]])) Hne) as (Hmean & Hstd & _).
  split; [exact Hmean | exact Hstd].
Defined.

(** C7 as stated fails on a constant kernel output: two sequences of one
    step, each with reward 1, give [[1], [1]], which is standardized to
    zeros, so the result has standard deviation 0 and not about 1. *)
Lemma normalized_std_not_one :
  exists out,
    discount_reward (Eager (Nd1 [1; 1])) (Some (Eager [1; 1]%nat)) 1 true 1 = Return out /\
    Np.std out = 0 /\ Rabs (Np.std out - 1) = 1.
Proof.
  exists (normalize_py [[1]; [1]]).
  assert (Hvar : Np.var [[1]; [1]] = 0).
  { assert (Hmu : Np.mean [[1]; [1]] = 1) by (unfold Np.mean; simpl; lra).
    unfold Np.var. rewrite Hmu. simpl. lra. }
  assert (Hstd : Np.std (normalize_py [[1]; [1]]) = 0).
  { rewrite std_normalize_py by discriminate.
    unfold Np.std. rewrite Hvar, sqrt_0. lra. }
  split; [run_kernels; same_entries|].
  split; [exact Hstd|]. rewrite Hstd.
  replace (0 - 1) with (- (1)) by lra. rewrite Rabs_Ropp. apply Rabs_R1.
Qed.

(** * Further properties of the kernels and of the dispatcher *)

(** ** The two backends *)


(** X2. On a rectangular 2D reward the deferred 2D kernel returns what the
    eager 2D kernel returns whenever the discount is exactly 1 or the
    (pre-masked) reward has at least two time steps. *)
Theorem kernel_2d_backends_agree (m : matrix) sl d :
  rectangular m -> sliceable d (premask m sl) ->
  _discount_reward_tensor_2d (Nd2 m) sl d = _discount_reward_py_2d m sl d.
Proof.
  intros Hm Hs.
  by rewrite discount_reward_tensor_2d_rows, discount_reward_py_2d_rows.
Qed.

Lemma kernel_2d_backends_agree_witness :
  rectangular [[1; 2; 3]] /\ sliceable 0.5 (premask [[1; 2; 3]] None) /\
  _discount_reward_tensor_2d (Nd2 [[1; 2; 3]]) None 0.5
  = _discount_reward_py_2d [[1; 2; 3]] None 0.5.
Proof.
  assert (Hm : rectangular [[1; 2; 3]]) by (repeat constructor).
  assert (Hs : sliceable 0.5 (premask [[1; 2; 3]] None)) by (right; simpl; lia).
  split; [exact Hm|]. split; [exact Hs|].
  exact (kernel_2d_backends_agree [[1; 2; 3]] None 0.5 Hm Hs).
Defined.




(** ** Shape, lengths and special discounts of the 2D kernel *)

Lemma mask_row_full len (row : list R) :
  (length row <= len)%nat -> mask_row len row = row.
Proof.
  intros Hlen. apply list_eq; intros t. rewrite mask_row_lookup.
  destruct (row !! t) as [x|] eqn:E; simpl; [|done].
  apply lookup_lt_Some in E.
  destruct (Nat.ltb_spec t len); [done | lia].
Qed.

Lemma backward_zero (row : list R) : backward 0 row = row.
Proof.
  induction row as [|x row IH]; simpl; [done|]. rewrite IH.
  destruct row as [|y rest]; [done|]. f_equal. lra.
Qed.

(** X4. The eager 2D kernel keeps the shape of a rectangular reward that
    comes with one length per row (or with no lengths): as many rows, each
    as long as the rows of the reward. *)
Theorem kernel_2d_shape (reward : matrix) sl d :
  rectangular reward -> lengths_fit reward sl ->
  exists out,
    _discount_reward_py_2d reward sl d = Return out /\
    length out = length reward /\
    forall r row, out !! r = Some row -> length row = shape1 reward.
Proof.
  intros Hm Hfit. eexists. split; [by apply discount_reward_py_2d_rows|]. split.
  - rewrite length_map. destruct sl as [sl|]; simpl in *; [|done].
    unfold mask_sequences. rewrite length_zip_with. lia.
  - intros r row Hr. rewrite lookup_map in Hr.
    destruct (premask reward sl !! r) as [row0|] eqn:E; [|done].
    injection Hr as <-. rewrite length_backward.
    by eapply premask_row_length.
Qed.

Lemma kernel_2d_shape_witness :
  rectangular [[1; 2]; [3; 4]] /\ lengths_fit [[1; 2]; [3; 4]] (Some [2; 1]%nat) /\
  exists out,
    _discount_reward_py_2d [[1; 2]; [3; 4]] (Some [2; 1]%nat) 0.5 = Return out /\
    length out = 2%nat.
Proof.
  assert (Hm : rectangular [[1; 2]; [3; 4]]) by (repeat constructor).
  assert (Hfit : lengths_fit [[1; 2]; [3; 4]] (Some [2; 1]%nat)) by reflexivity.
  split; [exact Hm|]. split; [exact Hfit|].
  destruct (kernel_2d_shape [[1; 2]; [3; 4]] (Some [2; 1]%nat) 0.5 Hm Hfit)
    as (out & Hout & Hlen & _).
  exists out. split; [exact Hout | exact Hlen].
Defined.

(** X5. Sequence lengths that all reach the end of the rows change nothing:
    the 2D kernel, eager or deferred, gives on such lengths (one per row)
    what it gives with no lengths at all. *)
Theorem full_lengths_are_no_lengths (reward : matrix) (sl : list nat) d :
  rectangular reward -> length sl = length reward ->
  Forall (fun len => (shape1 reward <= len)%nat) sl ->
  _discount_reward_py_2d reward (Some sl) d = _discount_reward_py_2d reward None d /\
  _discount_reward_tensor_2d (Nd2 reward) (Some sl) d
  = _discount_reward_tensor_2d (Nd2 reward) None d.
Proof.
  intros Hm Hlen Hfull.
  assert (Hmask : mask_sequences reward sl = reward).
  { apply list_eq; intros r. rewrite mask_sequences_lookup.
    destruct (reward !! r) as [row|] eqn:Er; [|done].
    destruct (sl !! r) as [len|] eqn:El.
    - f_equal. apply mask_row_full.
      rewrite (rectangular_lookup reward r row Hm Er).
      exact (proj1 (Forall_lookup _ _) Hfull r len El).
    - apply lookup_lt_Some in Er. apply lookup_ge_None in El. lia. }
  unfold _discount_reward_py_2d, _discount_reward_tensor_2d. simpl premask.
  by rewrite Hmask.
Qed.

Lemma full_lengths_are_no_lengths_witness :
  rectangular [[1; 2; 3]] /\ length [5%nat] = length [[1; 2; 3]] /\
  _discount_reward_py_2d [[1; 2; 3]] (Some [5%nat]) 0.5
  = _discount_reward_py_2d [[1; 2; 3]] None 0.5.
Proof.
  assert (Hm : rectangular [[1; 2; 3]]) by (repeat constructor).
  split; [exact Hm|]. split; [reflexivity|].
  apply (full_lengths_are_no_lengths [[1; 2; 3]] [5%nat] 0.5 Hm eq_refl).
  constructor; [simpl; lia | constructor].
Defined.

(** X6. With discount 0 nothing of the future is added: the eager 2D kernel
    returns the (pre-masked) reward itself. *)
Theorem zero_discount_returns_reward (reward : matrix) sl :
  rectangular reward ->
  _discount_reward_py_2d reward sl 0 = Return (premask reward sl).
Proof.
  intros Hm. rewrite discount_reward_py_2d_rows by done. f_equal.
  rewrite <- (map_id (premask reward sl)) at 2.
  apply map_ext; intros row. apply backward_zero.
Qed.

Lemma zero_discount_returns_reward_witness :
  rectangular [[1; 2; 3]] /\
  _discount_reward_py_2d [[1; 2; 3]] None 0 = Return [[1; 2; 3]].
Proof.
  assert (Hm : rectangular [[1; 2; 3]]) by (repeat constructor).
  split; [exact Hm|].
  exact (zero_discount_returns_reward [[1; 2; 3]] None Hm).
Defined.

Lemma agree_from_premask t0 (m1 m2 : matrix) sl :
  agree_from t0 m1 m2 -> agree_from t0 (premask m1 sl) (premask m2 sl).
Proof.
  intros [Hlen H]. destruct sl as [sl|]; simpl; [|by split]. split.
  - unfold mask_sequences. rewrite !length_zip_with. lia.
  - intros r row1 row2 t H1 H2 Ht. rewrite mask_sequences_lookup in H1, H2.
    destruct (m1 !! r) as [r1|] eqn:E1; [|done].
    destruct (m2 !! r) as [r2|] eqn:E2; [|done].
    destruct (sl !! r) as [len|]; [|done].
    injection H1 as <-. injection H2 as <-.
    rewrite !mask_row_lookup. by rewrite (H r r1 r2 t E1 E2 Ht).
Qed.

(** X7. The output at a time index depends on the reward from that index
    on only: two rectangular rewards that agree, row by row, from index
    [t0] on give outputs of the eager 2D kernel that agree from [t0] on. *)
Theorem output_depends_on_future_only t0 (reward1 reward2 : matrix) sl d :
  rectangular reward1 -> rectangular reward2 ->
  agree_from t0 reward1 reward2 ->
  exists out1 out2,
    _discount_reward_py_2d reward1 sl d = Return out1 /\
    _discount_reward_py_2d reward2 sl d = Return out2 /\
    forall r t, (t0 <= t)%nat -> entry out1 r t = entry out2 r t.
Proof.
  intros Hm1 Hm2 Hagree.
  destruct (agree_from_premask t0 reward1 reward2 sl Hagree) as [Hlen H].
  do 2 eexists. split; [by apply discount_reward_py_2d_rows|].
  split; [by apply discount_reward_py_2d_rows|].
  intros r t Ht. unfold entry. rewrite !lookup_map.
  destruct (premask reward1 sl !! r) as [row1|] eqn:E1;
    destruct (premask reward2 sl !! r) as [row2|] eqn:E2; simpl.
  - assert (Hdrop : drop t row1 = drop t row2).
    { apply list_eq; intros i. rewrite !lookup_drop. apply (H r); [done | done | lia]. }
    assert (Hl : forall row, backward d row !! t
                   = if decide (t < length row)%nat
                     then Some (discounted_sum d (drop t row)) else None).
    { intros row. destruct (decide (t < length row)%nat).
      - by apply lookup_backward.
      - apply lookup_ge_None_2. rewrite length_backward. lia. }
    rewrite !Hl, Hdrop.
    assert (Hsame : (t < length row1)%nat <-> (t < length row2)%nat).
    { rewrite <- !lookup_lt_is_Some. by rewrite (H r row1 row2 t E1 E2 Ht). }
    destruct (decide (t < length row1)%nat), (decide (t < length row2)%nat);
      try done; tauto.
  - apply lookup_lt_Some in E1. apply lookup_ge_None in E2. lia.
  - apply lookup_lt_Some in E2. apply lookup_ge_None in E1. lia.
  - done.
Qed.

Lemma output_depends_on_future_only_witness :
  agree_from 1 [[1; 2; 3]] [[9; 2; 3]] /\
  exists out1 out2,
    _discount_reward_py_2d [[1; 2; 3]] None 0.5 = Return out1 /\
    _discount_reward_py_2d [[9; 2; 3]] None 0.5 = Return out2 /\
    entry out1 0 1 = entry out2 0 1.
Proof.
  assert (Hm1 : rectangular [[1; 2; 3]]) by (repeat constructor).
  assert (Hm2 : rectangular [[9; 2; 3]]) by (repeat constructor).
  assert (Ha : agree_from 1 [[1; 2; 3]] [[9; 2; 3]]).
  { split; [reflexivity|]. intros r row1 row2 t H1 H2 Ht.
    destruct r as [|r]; [|destruct r; discriminate].
    injection H1 as <-. injection H2 as <-.
    destruct t as [|t]; [lia | reflexivity]. }
  split; [exact Ha|].
  destruct (output_depends_on_future_only 1 [[1; 2; 3]] [[9; 2; 3]] None 0.5 Hm1 Hm2 Ha)
    as (out1 & out2 & H1 & H2 & H).
  exists out1, out2. split; [exact H1|]. split; [exact H2|].
  apply H. lia.
Defined.

(** ** Sums and signs of rewards *)

Lemma backward_add d : forall row1 row2 : list R,
  length row1 = length row2 ->
  backward d (zip_with Rplus row1 row2)
  = zip_with Rplus (backward d row1) (backward d row2).
Proof.
  induction row1 as [|x1 row1 IH]; intros [|x2 row2] Hlen; simpl in *; try done.
  rewrite IH by lia.
  pose proof (length_backward d row1) as H1.
  pose proof (length_backward d row2) as H2.
  destruct (backward d row1) as [|y1 rest1], (backward d row2) as [|y2 rest2];
    simpl in *; try done; try lia.
  f_equal. lra.
Qed.

Lemma mask_row_add len (row1 row2 : list R) :
  mask_row len (zip_with Rplus row1 row2)
  = zip_with Rplus (mask_row len row1) (mask_row len row2).
Proof.
  apply list_eq; intros t.
  rewrite mask_row_lookup, !lookup_zip_with, !mask_row_lookup.
  destruct (row1 !! t) as [x1|]; simpl; [|done].
  destruct (row2 !! t) as [x2|]; simpl; [|done].
  destruct (t <? len)%nat; f_equal; lra.
Qed.

Lemma premask_add (m1 m2 : matrix) sl :
  premask (matrix_add m1 m2) sl = matrix_add (premask m1 sl) (premask m2 sl).
Proof.
  destruct sl as [sl|]; simpl; [|done].
  apply list_eq; intros r. unfold matrix_add.
  rewrite mask_sequences_lookup, !lookup_zip_with, !mask_sequences_lookup.
  destruct (m1 !! r) as [r1|], (m2 !! r) as [r2|], (sl !! r) as [len|];
    simpl; try done.
  f_equal. apply mask_row_add.
Qed.

Lemma rectangular_add (m1 m2 : matrix) :
  rectangular m1 -> rectangular m2 -> shape1 m1 = shape1 m2 ->
  rectangular (matrix_add m1 m2).
Proof.
  intros H1 H2 Hs. apply Forall_lookup. intros r row Hr.
  unfold matrix_add in *. rewrite lookup_zip_with in Hr.
  destruct (m1 !! r) as [r1|] eqn:E1; simpl in Hr; [|done].
  destruct (m2 !! r) as [r2|] eqn:E2; simpl in Hr; [|done].
  injection Hr as <-. rewrite length_zip_with.
  rewrite (rectangular_lookup m1 r r1 H1 E1), (rectangular_lookup m2 r r2 H2 E2).
  destruct m1 as [|a m1]; [done|]. destruct m2 as [|b m2]; [done|].
  simpl in *. rewrite length_zip_with. lia.
Qed.

(** X8. The eager 2D kernel is additive in the reward: on two rectangular
    rewards of one shape, the output for their entrywise sum is the
    entrywise sum of their outputs. *)
Theorem reward_additivity (reward1 reward2 : matrix) sl d :
  rectangular reward1 -> rectangular reward2 -> shape1 reward1 = shape1 reward2 ->
  exists out1 out2,
    _discount_reward_py_2d reward1 sl d = Return out1 /\
    _discount_reward_py_2d reward2 sl d = Return out2 /\
    _discount_reward_py_2d (matrix_add reward1 reward2) sl d
    = Return (matrix_add out1 out2).
Proof.
  intros H1 H2 Hs. do 2 eexists.
  split; [by apply discount_reward_py_2d_rows|].
  split; [by apply discount_reward_py_2d_rows|].
  rewrite discount_reward_py_2d_rows by (by apply rectangular_add). f_equal.
  rewrite premask_add. unfold matrix_add.
  apply list_eq; intros r. rewrite lookup_map, !lookup_zip_with, !lookup_map.
  destruct (premask reward1 sl !! r) as [r1|] eqn:E1; simpl; [|done].
  destruct (premask reward2 sl !! r) as [r2|] eqn:E2; simpl; [|done].
  f_equal. apply backward_add.
  rewrite (premask_row_length reward1 sl r r1 H1 E1).
  by rewrite (premask_row_length reward2 sl r r2 H2 E2).
Qed.

Lemma reward_additivity_witness :
  rectangular [[1; 2]] /\ rectangular [[3; 4]] /\
  exists out1 out2,
    _discount_reward_py_2d [[1; 2]] None 0.5 = Return out1 /\
    _discount_reward_py_2d [[3; 4]] None 0.5 = Return out2 /\
    _discount_reward_py_2d [[1 + 3; 2 + 4]] None 0.5 = Return (matrix_add out1 out2).
Proof.
  assert (H1 : rectangular [[1; 2]]) by (repeat constructor).
  assert (H2 : rectangular [[3; 4]]) by (repeat constructor).
  split; [exact H1|]. split; [exact H2|].
  exact (reward_additivity [[1; 2]] [[3; 4]] None 0.5 H1 H2 eq_refl).
Defined.

Lemma discounted_sum_nonneg d (l : list R) :
  0 <= d -> Forall (fun x => 0 <= x) l -> 0 <= discounted_sum d l.
Proof.
  intros Hd. induction 1 as [|x l Hx _ IH]; simpl; [lra|]. nra.
Qed.

Lemma nonnegative_premask (m : matrix) sl : nonnegative m -> nonnegative (premask m sl).
Proof.
  intros Hm. destruct sl as [sl|]; simpl; [|done].
  apply Forall_lookup. intros r row Hr. rewrite mask_sequences_lookup in Hr.
  destruct (m !! r) as [row0|] eqn:E; [|done].
  destruct (sl !! r) as [len|]; [|done]. injection Hr as <-.
  pose proof (proj1 (Forall_lookup _ _) Hm r row0 E) as Hrow.
  apply Forall_lookup. intros t x Hx. rewrite mask_row_lookup in Hx.
  destruct (row0 !! t) as [y|] eqn:Ey; [|done]. simpl in Hx. injection Hx as <-.
  pose proof (proj1 (Forall_lookup _ _) Hrow t y Ey). simpl in *.
  destruct (t <? len)%nat; lra.
Qed.

(** X9. With a non-negative discount and non-negative rewards, every
    output entry of the eager 2D kernel is at least the (pre-masked) reward
    at its position, hence non-negative. *)
Theorem returns_dominate_rewards (reward : matrix) sl d r t x :
  rectangular reward -> nonnegative reward -> 0 <= d ->
  entry (premask reward sl) r t = Some x ->
  exists out y,
    _discount_reward_py_2d reward sl d = Return out /\
    entry out r t = Some y /\ 0 <= x <= y.
Proof.
  intros Hm Hpos Hd Hx. apply entry_Some in Hx as (row & Hr & Hx).
  exists (map (backward d) (premask reward sl)), (discounted_sum d (drop t row)).
  split; [by apply discount_reward_py_2d_rows|].
  split.
  - unfold entry. rewrite lookup_map, Hr. simpl.
    apply lookup_backward. by eapply lookup_lt_Some.
  - pose proof (nonnegative_premask reward sl Hpos) as Hp.
    pose proof (proj1 (Forall_lookup _ _) Hp r row Hr) as Hrow. simpl in Hrow.
    rewrite (drop_S row x t Hx). simpl.
    assert (Hrest : 0 <= discounted_sum d (drop (S t) row)).
    { apply discounted_sum_nonneg; [done|]. by apply Forall_drop. }
    pose proof (proj1 (Forall_lookup _ _) Hrow t x Hx) as H0. simpl in H0.
    nra.
Qed.

Lemma returns_dominate_rewards_witness :
  rectangular [[1; 2; 3]] /\ nonnegative [[1; 2; 3]] /\ 0 <= 0.5 /\
  exists out y,
    _discount_reward_py_2d [[1; 2; 3]] None 0.5 = Return out /\
    entry out 0 1 = Some y /\ 0 <= 2 <= y.
Proof.
  assert (Hm : rectangular [[1; 2; 3]]) by (repeat constructor).
  assert (Hp : nonnegative [[1; 2; 3]]) by (repeat constructor; lra).
  assert (Hd : 0 <= 0.5) by lra.
  split; [exact Hm|]. split; [exact Hp|]. split; [exact Hd|].
  exact (returns_dominate_rewards [[1; 2; 3]] None 0.5 0 1 2 Hm Hp Hd eq_refl).
Defined.

(** ** The 1D kernel as a 2D kernel *)






(** X11. The exact test [discount == 1.] of the 1D kernel only saves work:
    its general branch, which the kernel takes for every other discount,
    would build the same matrix of ones at discount 1 (one length per batch
    row, none above the number of columns). *)
Theorem discount_matrix_at_one (B T : nat) (sl : list nat) :
  length sl = B -> Forall (fun len => (len <= T)%nat) sl ->
  dmat_py_general B T sl 1 = dmat_py B T sl 1 /\
  forall d, d <> 1 -> dmat_py B T sl d = dmat_py_general B T sl d.
Proof.
  intros HB Hlen. split.
  - unfold dmat_py. destruct (Req_dec_T 1 1) as [_|?]; [|done].
    apply list_eq; intros r.
    unfold dmat_py_general, Np.flip, Np.less_mask, Np.tile, Np.arange, Np.ones.
    rewrite !lookup_map, lookup_zip_with, lookup_map.
    destruct (decide (r < B)%nat) as [Hr|Hr].
    + rewrite !lookup_replicate_2 by done. simpl.
      destruct (lookup_lt_is_Some_2 sl r ltac:(lia)) as [len El].
      rewrite El. simpl. f_equal. rewrite map_map.
      change (map (fun t => (if (Z.of_nat t <? Z.of_nat len - 1)%Z then 1 else 0) * 1
                            + (1 - (if (Z.of_nat t <? Z.of_nat len - 1)%Z then 1 else 0)))
                  (seq 0 T))
        with (map (factor 1 len) (seq 0 T)).
      rewrite weighted_row by exact (proj1 (Forall_lookup _ _) Hlen r len El).
      apply list_eq; intros t. unfold weights. rewrite lookup_map.
      destruct (decide (t < T)%nat) as [Ht|Ht].
      * rewrite lookup_seq_lt, lookup_replicate_2 by done. simpl. by rewrite pow1.
      * rewrite lookup_seq_ge by lia. simpl. symmetry. apply lookup_replicate_None. lia.
    + rewrite (proj1 (lookup_replicate_None B (seq 0 T) r)) by lia. simpl.
      symmetry. apply lookup_replicate_None. lia.
  - intros d Hd. unfold dmat_py. by destruct (Req_dec_T d 1).
Qed.

Lemma discount_matrix_at_one_witness :
  length [3; 2]%nat = 2%nat /\
  dmat_py_general 2 3 [3; 2]%nat 1 = dmat_py 2 3 [3; 2]%nat 1.
Proof.
  split; [reflexivity|].
  apply (discount_matrix_at_one 2 3 [3; 2]%nat eq_refl).
  repeat (constructor; [lia|]). constructor.
Defined.

(** ** More on normalization *)

Lemma dispatcher_normalized reward sl d rank :
  discount_reward reward sl d true rank
  = omap normalize_py (discount_reward reward sl d false rank).
Proof.
  unfold discount_reward. destruct (deferred reward sl).
  - by destruct (if (rank =? 1)%Z then _ else _).
  - by destruct (match value reward with Nd1 _ => _ | _ => _ end).
Qed.

Lemma sumR_constant c (l : list R) :
  Forall (fun x => x = c) l -> sumR l = INR (length l) * c.
Proof.
  induction 1 as [|x l -> _ IH]; [simpl; lra|].
  change (sumR (c :: l)) with (c + sumR l). rewrite IH.
  change (length (c :: l)) with (S (length l)). rewrite S_INR. lra.
Qed.

Lemma mean_constant c (m : matrix) :
  constant c m -> Np.flatten m <> [] -> Np.mean m = c.
Proof.
  intros Hc Hne. unfold Np.mean.
  rewrite (sumR_constant c); [|by apply Forall_concat].
  field. apply not_0_INR. by destruct (Np.flatten m).
Qed.

(** X12. A kernel output with at least one entry and all entries equal is
    normalized to zeros, in either mode: the standard deviation is 0 and
    the [1e-8] in the denominator keeps the division defined. *)
Theorem constant_output_normalizes_to_zero reward sl d rank (m : matrix) c :
  discount_reward reward sl d false rank = Return m ->
  constant c m -> Np.flatten m <> [] ->
  0 < Np.std m + 1e-8 /\
  exists out,
    discount_reward reward sl d true rank = Return out /\
    length out = length m /\
    forall r t y, entry out r t = Some y -> y = 0.
Proof.
  intros Hm Hc Hne. split; [apply stabilized_std_pos|].
  exists (normalize_py m). split; [by rewrite dispatcher_normalized, Hm|].
  split; [unfold normalize_py; by rewrite length_map|].
  intros r t y Hy. apply entry_Some in Hy as (row & Hr & Hy).
  unfold normalize_py in Hr. rewrite lookup_map in Hr.
  destruct (m !! r) as [row0|] eqn:Er; [|done]. injection Hr as <-.
  rewrite lookup_map in Hy. destruct (row0 !! t) as [x|] eqn:Ex; [|done].
  injection Hy as <-.
  pose proof (proj1 (Forall_lookup _ _) Hc r row0 Er) as Hrow. simpl in Hrow.
  pose proof (proj1 (Forall_lookup _ _) Hrow t x Ex) as Hx. simpl in Hx.
  rewrite (mean_constant c m Hc Hne), Hx. unfold Rdiv.
  replace (c - c) with 0 by lra. apply Rmult_0_l.
Qed.

Lemma constant_output_normalizes_to_zero_witness :
  constant (1 * 1) [[1 * 1]; [1 * 1]] /\
  exists out,
    discount_reward (Eager (Nd1 [1; 1])) (Some (Eager [1; 1]%nat)) 1 true 1 = Return out /\
    length out = 2%nat /\
    forall r t y, entry out r t = Some y -> y = 0.
Proof.
  assert (Hrun : discount_reward (Eager (Nd1 [1; 1])) (Some (Eager [1; 1]%nat)) 1 false 1
                 = Return [[1 * 1]; [1 * 1]]).
  { run_kernels. reflexivity. }
  assert (Hc : constant (1 * 1) [[1 * 1]; [1 * 1]]) by (repeat constructor).
  split; [exact Hc|].
  exact (proj2 (constant_output_normalizes_to_zero _ _ _ _ _ _ Hrun Hc ltac:(discriminate))).
Defined.

Lemma sumR_shift k (l : list R) :
  sumR (map (fun x => x + k) l) = sumR l + INR (length l) * k.
Proof.
  induction l as [|x l IH]; [simpl; lra|].
  change (sumR (map (fun x => x + k) (x :: l)))
    with ((x + k) + sumR (map (fun x => x + k) l)).
  rewrite IH. change (length (x :: l)) with (S (length l)). rewrite S_INR.
  change (sumR (x :: l)) with (x + sumR l). lra.
Qed.

Lemma flatten_shift k (m : matrix) :
  Np.flatten (shift k m) = map (fun x => x + k) (Np.flatten m).
Proof. apply flatten_map. Qed.

Lemma mean_shift k (m : matrix) :
  Np.flatten m <> [] -> Np.mean (shift k m) = Np.mean m + k.
Proof.
  intros Hne. unfold Np.mean. rewrite flatten_shift, length_map, sumR_shift.
  field. apply not_0_INR. by destruct (Np.flatten m).
Qed.

Lemma var_shift k (m : matrix) :
  Np.flatten m <> [] -> Np.var (shift k m) = Np.var m.
Proof.
  intros Hne. unfold Np.var. rewrite mean_shift by done.
  rewrite flatten_shift, length_map, map_map. do 2 f_equal.
  apply map_ext; intros x. ring.
Qed.

(** X13. Normalization forgets a constant offset: adding the same number to
    every entry of a non-empty kernel output leaves the normalized result
    unchanged, in eager mode and in deferred mode. *)
Theorem normalization_shift_invariant k (m : matrix) :
  Np.flatten m <> [] ->
  normalize_py (shift k m) = normalize_py m /\
  normalize_tensor (shift k m) = normalize_tensor m.
Proof.
  intros Hne.
  assert (H : normalize_py (shift k m) = normalize_py m).
  { unfold normalize_py, Np.std. rewrite mean_shift, var_shift by done.
    unfold shift. rewrite map_map. apply map_ext; intros row.
    rewrite map_map. apply map_ext; intros x. unfold Rdiv. ring. }
  split; [exact H|]. exact H.
Qed.

Lemma normalization_shift_invariant_witness :
  Np.flatten [[1; 0]] <> [] /\
  normalize_py [[1 + 5; 0 + 5]] = normalize_py [[1; 0]].
Proof.
  assert (Hne : Np.flatten [[1; 0]] <> []) by discriminate.
  split; [exact Hne|].
  exact (proj1 (normalization_shift_invariant 5 [[1; 0]] Hne)).
Defined.

(** ** The discounted return in explicit form *)

Lemma sumR_imap_pow d j : forall l : list R,
  sumR (imap (fun k x => x * d ^ (k + j)) l)
  = d ^ j * sumR (imap (fun k x => x * d ^ k) l).
Proof.
  intros l. revert j. induction l as [|x l IH] using rev_ind; intros j.
  - simpl. lra.
  - rewrite !imap_app. simpl.
    assert (Happ : forall a b : list R, sumR (a ++ b) = sumR a + sumR b).
    { intros a b. induction a as [|y a IHa]; simpl; [lra|]. rewrite IHa. lra. }
    rewrite !Happ, IH. simpl. rewrite Nat.add_0_r, pow_add. lra.
Qed.

Lemma discounted_sum_power_sum d (l : list R) : discounted_sum d l = power_sum d l.
Proof.
  unfold power_sum. induction l as [|x l IH]; [done|].
  rewrite imap_cons.
  rewrite (imap_ext ((fun k x => x * d ^ k) ∘ S) (fun k x => x * d ^ (k + 1)) l).
  - change (sumR (?a :: ?l)) with (a + sumR l).
    rewrite sumR_imap_pow. simpl. rewrite IH. lra.
  - intros k y _. simpl. by rewrite Nat.add_1_r.
Qed.

(** X14. Every output entry of the eager 2D kernel is the discounted return
    from its position: for a rectangular reward, the entry at time [t] of a
    row is the sum of the (pre-masked) rewards [row[t + k]] weighted by
    [discount ^ k], on the fast path and on the general path alike. *)
Theorem output_is_discounted_return (reward : matrix) sl d r t row :
  rectangular reward ->
  premask reward sl !! r = Some row -> (t < length row)%nat ->
  exists out,
    _discount_reward_py_2d reward sl d = Return out /\
    entry out r t = Some (power_sum d (drop t row)).
Proof.
  intros Hm Hr Ht. eexists. split; [by apply discount_reward_py_2d_rows|].
  unfold entry. rewrite lookup_map, Hr. simpl.
  rewrite lookup_backward by done. by rewrite discounted_sum_power_sum.
Qed.

Lemma output_is_discounted_return_witness :
  rectangular [[1; 2; 3]] /\
  exists out,
    _discount_reward_py_2d [[1; 2; 3]] None 0.5 = Return out /\
    entry out 0 1 = Some (power_sum 0.5 [2; 3]).
Proof.
  assert (Hm : rectangular [[1; 2; 3]]) by (repeat constructor).
  split; [exact Hm|].
  exact (output_is_discounted_return [[1; 2; 3]] None 0.5 0 1 [1; 2; 3] Hm eq_refl
           ltac:(simpl; lia)).
Defined.
